(** * Greedy influence maximization: a shallow embedding of
      [influence_maximization.cpp] and the properties of its core.

    The embedding covers the three functions that carry the algorithm:
    [reachable_from] (breadth-first search over one cascade),
    [calculate_influence] (average reach over all cascades) and the greedy
    loop of [main]; then [print_set], and the loader [create_cascade] and
    [get_cascade_vector] over an [environment] that stands for the file
    system and the stream library.  Timing is left out.

    Modelling conventions.
    - [int] node identifiers and counters are integers [Z].  Signed overflow
      of the counter [r] is undefined behaviour in C++ and would need more
      than [2^31 - 1] distinct reached nodes; the model covers the executions
      without overflow.
    - [set<int>] is a [gset Z]; a range-for over it visits the elements in
      ascending order, so iteration goes through [sorted_elements].
    - [map<int, vector<int> >] is a [gmap Z (list Z)]; [operator[]] is
      modelled with its insertion of a default value for a missing key, and
      functions that receive the map by reference return the updated map.
    - The functions that compute with [double] are written once, over the
      interface [double_ops] of the operations the program uses.  Two
      interpretations are given.  [binary64_ops] is the IEEE-754 binary64
      format of the Standard Library's executable specification; the program
      is evaluated with it on concrete inputs.  [exact_ops] takes a double
      for the rational it denotes, extended with the infinities and NaN so
      that division by zero means what it means in IEEE-754; rounding is left
      out.  The counts are [int]s, so their sum is exact in binary64 below
      [2^53]; the division by the number of cascades and the subtraction in
      [delta] round.  What is proved for [exact_ops] alone is marked as such;
      the properties of the greedy choice are proved for every arithmetic
      whose comparison is an order on numbers, which both interpretations
      are. *)

From Stdlib Require Import ZArith QArith Qcanon Floats.SpecFloat String Ascii.
From stdpp Require Import base numbers list sorting gmap fin_maps fin_sets.
From stdpp Require Import strings pretty.

Local Open Scope Z_scope.
#[local] Set Warnings "-clear-no-such-hyp".

(** ** The [double] type *)

(** The operations on [double] that the program uses. *)
Record double_ops : Type := DoubleOps {
  dbl : Type;
  d_zero : dbl;
  d_minus_one : dbl;
  d_of_int : Z → dbl;
  d_of_size : nat → dbl;
  d_add : dbl → dbl → dbl;
  d_sub : dbl → dbl → dbl;
  d_div : dbl → dbl → dbl;
  d_gtb : dbl → dbl → bool
}.

(** Doubles as the exact values they denote. *)
Module Double.

Inductive double : Type :=
  | DFin (q : Qc)
  | DInf (neg : bool)
  | DNaN.

Definition of_Z (z : Z) : double := DFin (Qc_of_Z z).

(** [0.0] and [-1.0], the two literals of the program. *)
Definition zero : double := of_Z 0.
Definition minus_one : double := of_Z (-1).

(** Conversion of an [int] and of a [size_t] to [double]. *)
Definition of_int (z : Z) : double := of_Z z.
Definition of_size (n : nat) : double := of_Z (Z.of_nat n).

Definition Qc_ltb (a b : Qc) : bool :=
  match (a ?= b)%Qc with Lt => true | _ => false end.

Definition Qc_eqb (a b : Qc) : bool :=
  match (a ?= b)%Qc with Eq => true | _ => false end.

Definition Qc_negative (a : Qc) : bool := Qc_ltb a 0%Qc.

Definition neg (a : double) : double :=
  match a with
  | DFin q => DFin (- q)%Qc
  | DInf s => DInf (negb s)
  | DNaN => DNaN
  end.

Definition add (a b : double) : double :=
  match a, b with
  | DNaN, _ | _, DNaN => DNaN
  | DFin p, DFin q => DFin (p + q)%Qc
  | DInf s, DFin _ | DFin _, DInf s => DInf s
  | DInf s, DInf t => if Bool.eqb s t then DInf s else DNaN
  end.

Definition sub (a b : double) : double := add a (neg b).

(** IEEE-754 division: [0/0] and [inf/inf] are NaN, a non-zero finite value
    divided by zero is an infinity.  The sign of a zero is not modelled; the
    only zero divisor of the program is the conversion of the unsigned
    [cascades.size()], which is [+0]. *)
Definition div (a b : double) : double :=
  match a, b with
  | DNaN, _ | _, DNaN => DNaN
  | DInf _, DInf _ => DNaN
  | DInf s, DFin q => DInf (xorb s (Qc_negative q))
  | DFin _, DInf _ => DFin 0%Qc
  | DFin p, DFin q =>
      if Qc_eqb q 0%Qc then
        if Qc_eqb p 0%Qc then DNaN else DInf (Qc_negative p)
      else DFin (p / q)%Qc
  end.

(** [a < b]; every comparison with NaN is false. *)
Definition ltb (a b : double) : bool :=
  match a, b with
  | DNaN, _ | _, DNaN => false
  | DFin p, DFin q => Qc_ltb p q
  | DFin _, DInf s => negb s
  | DInf s, DFin _ => s
  | DInf s, DInf t => s && negb t
  end.

Definition gtb (a b : double) : bool := ltb b a.

(** [a <= b]. *)
Definition leb (a b : double) : bool :=
  match a, b with
  | DNaN, _ | _, DNaN => false
  | DFin p, DFin q => negb (Qc_ltb q p)
  | DFin _, DInf s => negb s
  | DInf s, DFin _ => s
  | DInf s, DInf t => s || negb t
  end.

Definition is_nan (a : double) : bool :=
  match a with DNaN => true | _ => false end.

(** Decidable equality of values, for closed computations. *)
Definition double_eqb (a b : double) : bool :=
  match a, b with
  | DFin p, DFin q => Qc_eqb p q
  | DInf s, DInf t => Bool.eqb s t
  | DNaN, DNaN => true
  | _, _ => false
  end.

Definition exact_ops : double_ops :=
  DoubleOps double zero minus_one of_int of_size add sub div gtb.

End Double.

(** Doubles as IEEE-754 binary64 values: 53 bits of precision, exponents up
    to 1024, rounding to nearest with ties to even. *)
Module Binary64.

Definition b64_of_Z (z : Z) : spec_float := binary_normalize 53 1024 z 0 false.

Definition b64_zero : spec_float := S754_zero false.
Definition b64_minus_one : spec_float := b64_of_Z (-1).
Definition b64_of_int (z : Z) : spec_float := b64_of_Z z.
Definition b64_of_size (n : nat) : spec_float := b64_of_Z (Z.of_nat n).
Definition b64_add : spec_float → spec_float → spec_float := SFadd 53 1024.
Definition b64_sub : spec_float → spec_float → spec_float := SFsub 53 1024.
Definition b64_div : spec_float → spec_float → spec_float := SFdiv 53 1024.
Definition b64_gtb (a b : spec_float) : bool := SFltb b a.

Definition binary64_ops : double_ops :=
  DoubleOps spec_float b64_zero b64_minus_one b64_of_int b64_of_size
            b64_add b64_sub b64_div b64_gtb.

#[global] Instance spec_float_eq_dec : EqDecision spec_float.
Proof. solve_decision. Defined.

(** What [calculate_influence] computes for two cascades with the counts
    [r1] and [r2], and the test that it is the double denoting
    [(r1 + r2) / 2]. *)
Definition b64_average_of_two (r1 r2 : Z) : spec_float :=
  b64_div (b64_add (b64_add b64_zero (b64_of_int r1)) (b64_of_int r2)) (b64_of_size 2).

Definition b64_average_exact (r1 r2 : Z) : bool :=
  bool_decide (b64_average_of_two r1 r2 = binary_normalize 53 1024 (r1 + r2) (-1) false).

End Binary64.

Import Double Binary64.

(** ** Containers *)

(** In-order traversal of a [std::set<int>]. *)
Definition sorted_elements (S : gset Z) : list Z := merge_sort Z.le (elements S).

(** [m[k]] on a [std::map]: the value stored under [k], after inserting the
    default value [d] when [k] is not a key. *)
Definition map_index {V : Type} (d : V) (m : gmap Z V) (k : Z) : V * gmap Z V :=
  match m !! k with
  | Some v => (v, m)
  | None => (d, <[k := d]> m)
  end.

(** ** [reachable_from] *)

(** The local variables of [reachable_from] together with the cascade it
    holds by reference. *)
Record bfs_state : Type := BfsState {
  bfs_r : Z;
  bfs_Q : list Z;
  bfs_explored : gmap Z bool;
  bfs_A : gmap Z (list Z)
}.

(** Body of the first loop: [r++; Q.push(s); explored[s] = true;]. *)
Definition seed_step (st : bfs_state) (s : Z) : bfs_state :=
  BfsState (bfs_r st + 1) (bfs_Q st ++ [s])
           (<[s := true]> (snd (map_index false (bfs_explored st) s)))
           (bfs_A st).

(** Body of the inner loop over [A[u]]. *)
Definition visit_step (st : bfs_state) (v : Z) : bfs_state :=
  let '(b, explored) := map_index false (bfs_explored st) v in
  if negb b then
    BfsState (bfs_r st + 1) (bfs_Q st ++ [v])
             (<[v := true]> (snd (map_index false explored v)))
             (bfs_A st)
  else
    BfsState (bfs_r st) (bfs_Q st) explored (bfs_A st).

(** One iteration of [while (!Q.empty())]. *)
Definition bfs_step (st : bfs_state) : bfs_state :=
  match bfs_Q st with
  | [] => st
  | u :: Q' =>
      let '(vs, A') := map_index [] (bfs_A st) u in
      fold_left visit_step vs
        (BfsState (bfs_r st) Q' (bfs_explored st) A')
  end.

(** The [while] loop, run for at most [fuel] iterations. *)
Fixpoint bfs_loop (fuel : nat) (st : bfs_state) : bfs_state :=
  match fuel with
  | O => st
  | S fuel' =>
      match bfs_Q st with
      | [] => st
      | _ :: _ => bfs_loop fuel' (bfs_step st)
      end
  end.

Definition bfs_init (A : gmap Z (list Z)) (S : gset Z) : bfs_state :=
  fold_left seed_step (sorted_elements S) (BfsState 0 [] ∅ A).

(** All edge targets of a cascade. *)
Definition targets (A : gmap Z (list Z)) : gset Z :=
  ⋃ ((λ kv, list_to_set kv.2) <$> map_to_list A).

(** A number of iterations after which the queue is empty (see
    [bfs_final_queue_empty]): every iteration dequeues one node and a node
    enters the queue at most once. *)
Definition bfs_fuel (A : gmap Z (list Z)) (S : gset Z) : nat :=
  size S + size (targets A).

Definition bfs_final (A : gmap Z (list Z)) (S : gset Z) : bfs_state :=
  bfs_loop (bfs_fuel A S) (bfs_init A S).

(** [reachable_from(A, S)]: the returned count and the cascade as the call
    leaves it. *)
Definition reachable_from (A : gmap Z (list Z)) (S : gset Z)
  : Z * gmap Z (list Z) :=
  let st := bfs_final A S in (bfs_r st, bfs_A st).

(** ** [calculate_influence] *)

Section program.
Context (F : double_ops).

(** Body of [for (map<int, vector<int> > A : cascades)].  The loop variable
    is declared by value: [stored] is the element of the vector, the call
    works on the copy [A], and the copy, with whatever the call did to it, is
    destroyed at the end of the iteration. *)
Definition influence_step (S : gset Z) (influence : dbl F)
    (stored : gmap Z (list Z)) : dbl F * gmap Z (list Z) :=
  let A := stored in
  let '(influence_A, A_after_call) := reachable_from A S in
  (d_add F influence (d_of_int F influence_A), stored).

(** The range-for over the vector: the running total and the vector as the
    loop leaves it. *)
Fixpoint influence_loop (S : gset Z) (influence : dbl F)
    (cascades : list (gmap Z (list Z))) : dbl F * list (gmap Z (list Z)) :=
  match cascades with
  | [] => (influence, [])
  | stored :: rest =>
      let '(influence', stored') := influence_step S influence stored in
      let '(total, rest') := influence_loop S influence' rest in
      (total, stored' :: rest')
  end.

(** [calculate_influence(cascades, S)]: the returned value and the vector
    it received by reference. *)
Definition calculate_influence (cascades : list (gmap Z (list Z))) (S : gset Z)
  : dbl F * list (gmap Z (list Z)) :=
  let '(influence, cascades') := influence_loop S (d_zero F) cascades in
  (d_div F influence (d_of_size F (length cascades')), cascades').

(** ** The greedy loop of [main] *)

(** The three round-local variables. *)
Record round_best : Type := RoundBest {
  max_delta : dbl F;
  max_influence : dbl F;
  max_delta_node : Z
}.

(** The variables that live across rounds. *)
Record selector_state : Type := SelectorState {
  sel_cascades : list (gmap Z (list Z));
  sel_S : gset Z;
  previous_influence : dbl F
}.

(** Body of [for (int u : V)]. *)
Definition candidate_step (S : gset Z) (previous : dbl F)
    (acc : list (gmap Z (list Z)) * round_best) (u : Z)
  : list (gmap Z (list Z)) * round_best :=
  let '(cascades, best) := acc in
  if decide (u ∈ S) then acc
  else
    let T := {[u]} ∪ S in
    let '(influence_T, cascades') := calculate_influence cascades T in
    let delta := d_sub F influence_T previous in
    if d_gtb F delta (max_delta best)
    then (cascades', RoundBest delta influence_T u)
    else (cascades', best).

(** The initial values of the round-local variables. *)
Definition round_best0 : round_best :=
  RoundBest (d_minus_one F) (d_minus_one F) (-1).

(** Body of [for (int iter=0; iter<PARAM_K; iter++)]. *)
Definition greedy_round (V : gset Z) (st : selector_state) : selector_state :=
  let '(cascades, best) :=
    fold_left (candidate_step (sel_S st) (previous_influence st))
              (sorted_elements V)
              (sel_cascades st, round_best0) in
  SelectorState cascades ({[max_delta_node best]} ∪ sel_S st) (max_influence best).

Definition greedy_init (cascades : list (gmap Z (list Z))) : selector_state :=
  SelectorState cascades ∅ (d_zero F).

(** The state after the first [k] rounds. *)
Definition greedy_rounds (V : gset Z) (cascades : list (gmap Z (list Z)))
    (k : nat) : selector_state :=
  Nat.iter k (greedy_round V) (greedy_init cascades).

(** The greedy loop with [PARAM_K = K]: the seed set and the influence that
    [main] prints. *)
Definition greedy (V : gset Z) (cascades : list (gmap Z (list Z))) (K : Z)
  : gset Z * dbl F :=
  let st := greedy_rounds V cascades (Z.to_nat K) in
  (sel_S st, previous_influence st).

(** The value of [previous_influence] at the end of each of the first [k]
    rounds, in order. *)
Definition influence_trace (V : gset Z) (cascades : list (gmap Z (list Z)))
    (k : nat) : list (dbl F) :=
  (λ i, previous_influence (greedy_rounds V cascades (S i))) <$> seq 0 k.

(** [candidate_step] on the round-local variables alone, for a cascade
    vector that the calls leave as it is. *)
Definition candidate_best (cascades : list (gmap Z (list Z))) (S : gset Z)
    (previous : dbl F) (best : round_best) (u : Z) : round_best :=
  if decide (u ∈ S) then best
  else
    let influence_T := (calculate_influence cascades ({[u]} ∪ S)).1 in
    let delta := d_sub F influence_T previous in
    if d_gtb F delta (max_delta best) then RoundBest delta influence_T u else best.

End program.

Arguments max_delta {F} _.
Arguments max_influence {F} _.
Arguments max_delta_node {F} _.
Arguments sel_cascades {F} _.
Arguments sel_S {F} _.
Arguments previous_influence {F} _.

(** ** [print_set] *)

(** [std::to_string(int)]: the decimal numeral, with a leading [-] for a
    negative value. *)
Definition to_string (z : Z) : string := pretty z.

(** Body of the range-for of [print_set]: [size] is [S.size()], [out] the text
    written to [cout] so far. *)
Definition print_set_step (size : Z) (st : string * Z) (s : Z) : string * Z :=
  let '(out, count) := st in
  let out := out +:+ to_string s in
  let count := count + 1 in
  if decide (count < size) then (out +:+ ", ", count) else (out, count).

(** [print_set(S)], as the text [cout] holds after the call. *)
Definition print_set (S : gset Z) (out : string) : string :=
  let out := out +:+ "{" in
  let '(out, count) :=
    fold_left (print_set_step (Z.of_nat (size S))) (sorted_elements S) (out, 0) in
  out +:+ "}".

(** ** [create_cascade] and [get_cascade_vector] *)

Definition POUND : ascii := "#".
Definition PERCENT : ascii := "%".
Definition PARAM_K : Z := 1.
Definition CASCADE_DIRECTORY : string := "/path/to/cascades/".

(** What the loader obtains from the standard library. *)
Record environment : Type := Environment {
  (** the paths [std::filesystem::directory_iterator] yields for a directory,
      in its order; [None] when its constructor throws *)
  directory_entries : string → option (list string);
  (** the lines [std::getline] yields from an [ifstream] opened on a path;
      none when the file cannot be opened *)
  file_lines : string → list string;
  (** [iss >> from >> to] on a line: the two values when both extractions
      succeed, [None] when one fails *)
  stream_extract : string → option (Z * Z);
  (** the values that [from] and [to] hold after [iss >> from >> to] on a
      line where an extraction fails.  The stream is not tested: the library
      stores 0 into the variable whose extraction fails, the variable it does
      not get to keeps what an uninitialised [int] happens to hold, and the
      program goes on with both.  What an uninitialised variable holds may
      depend on what the program did before: the two containers, as they are
      when the line is read, are the first argument *)
  stream_leftover : gset Z * gmap Z (list Z) → string → Z * Z
}.

(** The ways the loader ends without returning. *)
Inductive failure : Type :=
  | FilesystemError
  | OutOfRange.

Inductive outcome (A : Type) : Type :=
  | Done (a : A)
  | Failed (e : failure).
Arguments Done {A} a.
Arguments Failed {A} e.

Section loader.
Context (env : environment).

(** [int from; int to; iss >> from >> to;]: the values of the two variables
    after the statement, whether the extractions succeeded or not. *)
Definition stream_values (st : gset Z * gmap Z (list Z)) (line : string) : Z * Z :=
  match stream_extract env line with
  | Some values => values
  | None => stream_leftover env st line
  end.

(** Body of [while (getline(infile, line))].  [line.at(0)] is evaluated
    before the test for the empty line and throws [std::out_of_range] on an
    empty line.  Nothing tests whether the extraction succeeded. *)
Definition create_cascade_line (st : gset Z * gmap Z (list Z)) (line : string)
  : outcome (gset Z * gmap Z (list Z)) :=
  let '(V, A) := st in
  match line with
  | EmptyString => Failed OutOfRange
  | String c _ =>
      if negb (Ascii.eqb c POUND || Ascii.eqb c PERCENT) && negb (String.eqb line "")
      then
        let '(from, to) := stream_values st line in
        let '(vs, A1) := map_index [] A from in
        let A2 := <[from := vs ++ [to]]> A1 in
        Done ({[from]} ∪ ({[to]} ∪ V), A2)
      else Done (V, A)
  end.

Fixpoint create_cascade_loop (lines : list string) (st : gset Z * gmap Z (list Z))
  : outcome (gset Z * gmap Z (list Z)) :=
  match lines with
  | [] => Done st
  | line :: rest =>
      match create_cascade_line st line with
      | Done st' => create_cascade_loop rest st'
      | Failed e => Failed e
      end
  end.

(** [create_cascade(V, A, graph_file_name)]: the two containers it received
    by reference, as the call leaves them. *)
Definition create_cascade (V : gset Z) (A : gmap Z (list Z)) (graph_file_name : string)
  : outcome (gset Z * gmap Z (list Z)) :=
  create_cascade_loop (file_lines env graph_file_name) (V, A).

(** [file_path.find(".txt") != -1]. *)
Definition contains_txt (file_path : string) : bool :=
  match index 0 ".txt" file_path with
  | Some _ => true
  | None => false
  end.

(** Body of [for (string graph_file_name : graph_file_names)]. *)
Definition load_step (st : gset Z * list (gmap Z (list Z))) (graph_file_name : string)
  : outcome (gset Z * list (gmap Z (list Z))) :=
  let '(V, cascades) := st in
  match create_cascade V ∅ graph_file_name with
  | Done (V', A) => Done (V', cascades ++ [A])
  | Failed e => Failed e
  end.

Fixpoint load_loop (graph_file_names : list string)
    (st : gset Z * list (gmap Z (list Z)))
  : outcome (gset Z * list (gmap Z (list Z))) :=
  match graph_file_names with
  | [] => Done st
  | name :: rest =>
      match load_step st name with
      | Done st' => load_loop rest st'
      | Failed e => Failed e
      end
  end.

(** [get_cascade_vector(V, cascades)]. *)
Definition get_cascade_vector (V : gset Z) (cascades : list (gmap Z (list Z)))
  : outcome (gset Z * list (gmap Z (list Z))) :=
  match directory_entries env CASCADE_DIRECTORY with
  | None => Failed FilesystemError
  | Some entries => load_loop (List.filter contains_txt entries) (V, cascades)
  end.

End loader.

(** ** [main] *)

(** The data-dependent parts of what [main] prints: the number of cascades,
    the text of [print_set(S)] and the value handed to [to_string].  The
    elapsed time is left out. *)
Record report (F : double_ops) : Type := Report {
  report_cascades : nat;
  report_set : string;
  report_influence : dbl F
}.
Arguments Report {F} _ _ _.
Arguments report_cascades {F} _.
Arguments report_set {F} _.
Arguments report_influence {F} _.

Definition main (F : double_ops) (env : environment) : outcome (report F) :=
  match get_cascade_vector env ∅ [] with
  | Failed e => Failed e
  | Done (V, cascades) =>
      let selection := greedy F V cascades PARAM_K in
      Done (Report (length cascades) (print_set selection.1 "") selection.2)
  end.

(** ** Notions used to state what the loader and the printer do *)

(** The nodes a cascade mentions, as a source or as a target. *)
Definition nodes (A : gmap Z (list Z)) : gset Z := dom A ∪ targets A.

(** A line that the loader skips. *)
Definition is_comment (line : string) : bool :=
  match line with
  | EmptyString => false
  | String c _ => Ascii.eqb c POUND || Ascii.eqb c PERCENT
  end.

(** The targets that a list of edges gives the source [u], in order. *)
Definition targets_of (u : Z) (edges : list (Z * Z)) : list Z :=
  (List.filter (λ e, Z.eqb e.1 u) edges).*2.

(** A line that [create_cascade] reads as intended: it has a first character
    and, unless that marks a comment, both extractions succeed. *)
Definition readable (env : environment) (line : string) : Prop :=
  line ≠ "" ∧ (is_comment line = false → is_Some (stream_extract env line)).

(** The edges that the lines of a file denote, in the order of the lines. *)
Definition edges_of (env : environment) (lines : list string) : list (Z * Z) :=
  omap (stream_extract env) (List.filter (λ line, negb (is_comment line)) lines).

(** The nodes that a list of edges mentions. *)
Definition endpoints (edges : list (Z * Z)) : gset Z :=
  list_to_set edges.*1 ∪ list_to_set edges.*2.

(** The cascade [A] holds the edges of the file [name]: its keys are their
    sources, and the list of a key holds the targets of its edges in the
    order of the lines. *)
Definition loaded_from (env : environment) (name : string) (A : gmap Z (list Z)) : Prop :=
  dom A = list_to_set (edges_of env (file_lines env name)).*1 ∧
  ∀ u, default [] (A !! u) = targets_of u (edges_of env (file_lines env name)).

(** The character [c] occurs in [s]. *)
Fixpoint has_char (c : ascii) (s : string) : bool :=
  match s with
  | EmptyString => false
  | String c' s' => Ascii.eqb c c' || has_char c s'
  end.

(** A directory with one cascade file, a file that is not one and a file
    whose name only contains [.txt]. *)
Module Example.

Definition edge_file : string := "/path/to/cascades/a.txt".
Definition backup_file : string := "/path/to/cascades/old.txt.bak".
Definition other_file : string := "/path/to/cascades/readme.md".

Definition env : environment :=
  Environment
    (λ dir, if String.eqb dir CASCADE_DIRECTORY
            then Some [edge_file; other_file; backup_file] else None)
    (λ path, if String.eqb path edge_file
             then ["# three edges"; "1 2"; "1 3"; "% more"; "2 4"] else [])
    (λ line, if String.eqb line "1 2" then Some (1, 2)
             else if String.eqb line "1 3" then Some (1, 3)
             else if String.eqb line "2 4" then Some (2, 4)
             else None)
    (λ st line, (0, 0)).

(** The same directory after a blank line was added to the cascade file. *)
Definition env_blank : environment :=
  Environment (directory_entries env)
    (λ path, if String.eqb path edge_file then ["1 2"; ""; "2 4"] else [])
    (stream_extract env) (stream_leftover env).

(** A directory with one cascade file whose second line holds no number:
    [from] is set to 0 and [to] keeps the 2 of the line before. *)
Definition env_garbled : environment :=
  Environment
    (λ dir, if String.eqb dir CASCADE_DIRECTORY then Some [edge_file] else None)
    (λ path, if String.eqb path edge_file then ["1 2"; "abc"] else [])
    (stream_extract env) (λ st line, (0, 2)).

(** A directory with the cascade file and a copy of it without the comment
    lines. *)
Definition plain_file : string := "/path/to/cascades/b.txt".

Definition env_copy : environment :=
  Environment
    (λ dir, if String.eqb dir CASCADE_DIRECTORY
            then Some [edge_file; plain_file] else None)
    (λ path, if String.eqb path plain_file
             then ["1 2"; "1 3"; "2 4"] else file_lines env path)
    (stream_extract env) (stream_leftover env).

End Example.

(** ** Specification-level notions *)

(** [v] is a direct successor of [u] in the cascade. *)
Definition edge (A : gmap Z (list Z)) (u v : Z) : Prop :=
  ∃ vs, A !! u = Some vs ∧ v ∈ vs.

(** [v] is reachable from a seed by following directed edges. *)
Definition reachable (A : gmap Z (list Z)) (S : gset Z) (v : Z) : Prop :=
  ∃ s, s ∈ S ∧ rtc (edge A) s v.

(** Sum of the per-cascade counts, as an integer. *)
Definition total_reach (cascades : list (gmap Z (list Z))) (S : gset Z) : Z :=
  foldr Z.add 0 ((λ A, (reachable_from A S).1) <$> cascades).

(** The average reach as an exact rational: the sum of the counts over the
    number of cascades. *)
Definition influence_value (cascades : list (gmap Z (list Z))) (S : gset Z) : Qc :=
  (Qc_of_Z (total_reach cascades S) / Qc_of_Z (Z.of_nat (length cascades)))%Qc.

(** [delta] for the candidate [u], as the body of [for (int u : V)] computes
    it: [calculate_influence(cascades, T) - previous_influence]. *)
Definition candidate_delta (F : double_ops) (cascades : list (gmap Z (list Z)))
    (S : gset Z) (previous : dbl F) (u : Z) : dbl F :=
  d_sub F (calculate_influence F cascades ({[u]} ∪ S)).1 previous.

(** What the choice of a round needs of [>] on [double]: it is transitive and
    irreflexive, and it is total on numbers, in that a number which does not
    exceed [b] is exceeded by whatever exceeds [b].  NaN is not a number:
    every comparison with it is false. *)
Record ordered_arithmetic (F : double_ops) (number : dbl F → Prop) : Prop := {
  gtb_irrefl : ∀ a, d_gtb F a a = false;
  gtb_trans : ∀ a b c, d_gtb F a b = true → d_gtb F b c = true → d_gtb F a c = true;
  gtb_below : ∀ a b c,
    number c → d_gtb F a b = true → d_gtb F c b = false → d_gtb F a c = true
}.

(** The exact value [calculate_influence] gives the candidate set [S ∪ {u}]. *)
Definition candidate_value (cascades : list (gmap Z (list Z))) (S : gset Z)
    (u : Z) : Qc :=
  influence_value cascades ({[u]} ∪ S).

(** ** Invariants of the search *)

(** [explored] never holds a [false] entry once a statement has completed: a
    lookup that inserts the default is followed by the assignment of [true]. *)
Definition all_true (e : gmap Z bool) : Prop := ∀ v b, e !! v = Some b → b = true.

(** The invariant of [while (!Q.empty())], for a call entered with cascade
    [A0] and seed set [S]. *)
Record bfs_inv (A0 : gmap Z (list Z)) (S : gset Z) (st : bfs_state) : Prop := BfsInv {
  inv_true : all_true (bfs_explored st);
  inv_count : bfs_r st = Z.of_nat (size (dom (bfs_explored st)));
  inv_seeds : S ⊆ dom (bfs_explored st);
  inv_sound : ∀ v, v ∈ dom (bfs_explored st) → reachable A0 S v;
  inv_nodup : NoDup (bfs_Q st);
  inv_queue : ∀ q, q ∈ bfs_Q st → q ∈ dom (bfs_explored st);
  inv_closed : ∀ u v,
    u ∈ dom (bfs_explored st) → u ∉ bfs_Q st → edge A0 u v →
    v ∈ dom (bfs_explored st);
  inv_A : ∀ k,
    bfs_A st !! k =
      match A0 !! k with
      | Some vs => Some vs
      | None =>
          if decide (k ∈ dom (bfs_explored st) ∧ k ∉ bfs_Q st)
          then Some [] else None
      end
}.

(** The variant of the loop: queued nodes plus edge targets not yet marked. *)
Definition bfs_measure (A0 : gmap Z (list Z)) (st : bfs_state) : nat :=
  length (bfs_Q st) + size (targets A0 ∖ dom (bfs_explored st)).

(** The nodes marked by a call, read off the final [explored] map. *)
Definition reach_set (A : gmap Z (list Z)) (S : gset Z) : gset Z :=
  dom (bfs_explored (bfs_final A S)).

(** ** The scenarios of the specification *)

Module Scenario.

(** Edges 1→2, 2→3, 3→1. *)
Definition cycle : gmap Z (list Z) := {[ 1 := [2]; 2 := [3]; 3 := [1] ]}.

(** Scenario A: edges (1,2), (1,3), (2,4), as [create_cascade] stores them. *)
Definition cascade_A : gmap Z (list Z) := {[ 1 := [2; 3]; 2 := [4] ]}.
Definition universe_A : gset Z := {[ 1; 2; 3; 4 ]}.

(** A universe of two nodes with the single edge 1→2. *)
Definition cascade_C : gmap Z (list Z) := {[ 1 := [2] ]}.
Definition universe_C : gset Z := {[ 1; 2 ]}.

End Scenario.

(** * Proofs *)

(** ** Ordered traversal of a set *)

Section sorted_elements.
Implicit Types (S : gset Z) (x : Z).

Lemma sorted_elements_perm S : sorted_elements S ≡ₚ elements S.
Proof. apply merge_sort_Permutation. Qed.

Lemma elem_of_sorted_elements S x : x ∈ sorted_elements S ↔ x ∈ S.
Proof. by rewrite sorted_elements_perm, elem_of_elements. Qed.

Lemma NoDup_sorted_elements S : NoDup (sorted_elements S).
Proof. rewrite sorted_elements_perm. apply NoDup_elements. Qed.

Lemma length_sorted_elements S : length (sorted_elements S) = size S.
Proof. unfold size, set_size. simpl. by rewrite sorted_elements_perm. Qed.

Lemma sorted_elements_ascending S : StronglySorted Z.le (sorted_elements S).
Proof. apply (StronglySorted_merge_sort Z.le). Qed.

Lemma list_to_set_sorted_elements S : list_to_set (sorted_elements S) = S.
Proof. apply set_eq. intros x. by rewrite elem_of_list_to_set, elem_of_sorted_elements. Qed.
End sorted_elements.

(** ** The steps of the search, without the bookkeeping of [operator[]] *)

Lemma all_true_empty : all_true ∅.
Proof. intros v b. by rewrite lookup_empty. Qed.

Lemma all_true_insert e v : all_true e → all_true (<[v := true]> e).
Proof.
  intros He w b. rewrite lookup_insert. case_decide; [congruence | apply He].
Qed.

Lemma seed_step_spec st s :
  seed_step st s =
    BfsState (bfs_r st + 1) (bfs_Q st ++ [s]) (<[s := true]> (bfs_explored st)) (bfs_A st).
Proof.
  unfold seed_step, map_index. destruct (bfs_explored st !! s); simpl; [done|].
  by rewrite insert_insert_eq.
Qed.

Lemma visit_step_spec st v :
  all_true (bfs_explored st) →
  visit_step st v =
    if decide (v ∈ dom (bfs_explored st)) then st
    else BfsState (bfs_r st + 1) (bfs_Q st ++ [v]) (<[v := true]> (bfs_explored st)) (bfs_A st).
Proof.
  intros He. unfold visit_step, map_index.
  destruct (bfs_explored st !! v) as [b|] eqn:Hv.
  - rewrite (He _ _ Hv). simpl. rewrite decide_True by (apply elem_of_dom; eauto).
    by destruct st.
  - simpl. rewrite decide_False by (by rewrite not_elem_of_dom).
    rewrite lookup_insert_eq. simpl. by rewrite insert_insert_eq.
Qed.

(** ** The two inner loops *)

Lemma seed_fold l : ∀ st,
  all_true (bfs_explored st) →
  let st' := fold_left seed_step l st in
  all_true (bfs_explored st') ∧
  bfs_A st' = bfs_A st ∧
  dom (bfs_explored st') = dom (bfs_explored st) ∪ list_to_set l ∧
  bfs_Q st' = bfs_Q st ++ l ∧
  bfs_r st' = bfs_r st + Z.of_nat (length l).
Proof.
  induction l as [|s l IH]; intros st He; simpl.
  - split_and!; [done | done | set_solver | by rewrite app_nil_r | lia].
  - rewrite seed_step_spec.
    destruct (IH (BfsState (bfs_r st + 1) (bfs_Q st ++ [s])
                    (<[s := true]> (bfs_explored st)) (bfs_A st)))
      as (He' & HA & Hdom & HQ & Hr); [by apply all_true_insert|].
    simpl in *. split_and!; [done | done | | | lia].
    + rewrite Hdom, dom_insert_L. set_solver.
    + by rewrite HQ, <- app_assoc.
Qed.

Lemma visit_fold vs : ∀ st,
  all_true (bfs_explored st) →
  let st' := fold_left visit_step vs st in
  all_true (bfs_explored st') ∧
  bfs_A st' = bfs_A st ∧
  dom (bfs_explored st') = dom (bfs_explored st) ∪ list_to_set vs ∧
  ∃ new,
    bfs_Q st' = bfs_Q st ++ new ∧
    NoDup new ∧
    (∀ x, x ∈ new ↔ x ∈ vs ∧ x ∉ dom (bfs_explored st)) ∧
    bfs_r st' = bfs_r st + Z.of_nat (length new).
Proof.
  induction vs as [|v vs IH]; intros st He; simpl.
  - split_and!; [done | done | set_solver |].
    exists []. split_and!; [by rewrite app_nil_r | apply NoDup_nil_2 | | simpl; lia].
    intros x. rewrite elem_of_nil. set_solver.
  - rewrite visit_step_spec by done. case_decide as Hv.
    + destruct (IH st He) as (He' & HA & Hdom & new & HQ & Hnd & Hnew & Hr).
      split_and!; [done | done | set_solver |].
      exists new. split_and!; [done | done | | done].
      intros x. rewrite Hnew. set_solver.
    + destruct (IH (BfsState (bfs_r st + 1) (bfs_Q st ++ [v])
                      (<[v := true]> (bfs_explored st)) (bfs_A st)))
        as (He' & HA & Hdom & new & HQ & Hnd & Hnew & Hr);
        [by apply all_true_insert|].
      simpl in *. rewrite dom_insert_L in Hdom. setoid_rewrite dom_insert_L in Hnew.
      split_and!; [done | done | set_solver |].
      exists (v :: new). split_and!.
      * by rewrite HQ, <- app_assoc.
      * apply NoDup_cons_2; [|done]. rewrite Hnew. set_solver.
      * intros x. rewrite elem_of_cons, Hnew.
        destruct (decide (x = v)) as [->|]; set_solver.
      * simpl length. lia.
Qed.

Lemma elem_of_targets A u vs v : A !! u = Some vs → v ∈ vs → v ∈ targets A.
Proof.
  intros Hu Hv. unfold targets. apply elem_of_union_list.
  exists (list_to_set vs). split; [|by apply elem_of_list_to_set].
  apply list_elem_of_fmap. exists (u, vs). split; [done|].
  by apply elem_of_map_to_list.
Qed.

(** ** One iteration of the search loop *)

Lemma bfs_step_inv A0 S st u Q' :
  bfs_inv A0 S st →
  bfs_Q st = u :: Q' →
  bfs_inv A0 S (bfs_step st) ∧
  Datatypes.S (bfs_measure A0 (bfs_step st)) = bfs_measure A0 st.
Proof.
  intros [He Hr Hseeds Hsound Hnd Hqueue Hclosed HA] HQ.
  rewrite HQ in Hnd, Hqueue, Hclosed, HA.
  apply NoDup_cons in Hnd as [HuQ' Hnd].
  assert (Hu : u ∈ dom (bfs_explored st)) by (apply Hqueue; left).
  pose proof (HA u) as HAu.
  rewrite decide_False in HAu by (intros [_ []]; left).
  set (vs := default [] (A0 !! u)).
  assert (Hedge : ∀ v, edge A0 u v ↔ v ∈ vs).
  { intros v. unfold edge, vs. destruct (A0 !! u) as [l|]; simpl.
    - split; [by intros (? & [= <-] & ?) | eauto].
    - split; [by intros (? & [=] & _) | by intros ?%not_elem_of_nil]. }
  assert (Htargets : ∀ v, v ∈ vs → v ∈ targets A0).
  { intros v (l & Hl & Hv)%Hedge. by eapply elem_of_targets. }
  set (A' := snd (map_index [] (bfs_A st) u)).
  assert (Hmi : map_index [] (bfs_A st) u = (vs, A')).
  { unfold A', vs, map_index. rewrite HAu. by destruct (A0 !! u). }
  assert (HA' : ∀ k, A' !! k =
            match A0 !! k with
            | Some l => Some l
            | None =>
                if decide (k = u ∨ k ∈ dom (bfs_explored st) ∧ k ∉ u :: Q')
                then Some [] else None
            end).
  { intros k. unfold A', map_index. rewrite HAu.
    destruct (A0 !! u) as [l|] eqn:HA0u; simpl.
    - rewrite HA. destruct (A0 !! k) eqn:HA0k; [done|].
      assert (k ≠ u) by congruence.
      repeat case_decide; naive_solver.
    - destruct (decide (k = u)) as [->|Hne].
      + rewrite lookup_insert_eq, HA0u. by rewrite decide_True by (by left).
      + rewrite lookup_insert_ne, HA by done.
        destruct (A0 !! k); [done|]. repeat case_decide; naive_solver. }
  unfold bfs_step, bfs_measure. rewrite HQ, Hmi.
  destruct (visit_fold vs (BfsState (bfs_r st) Q' (bfs_explored st) A') He)
    as (He' & HAeq & Hdom & new & HQ' & Hndnew & Hnew & Hr').
  simpl in *.
  set (st' := fold_left visit_step vs _) in *.
  assert (Hdom' : dom (bfs_explored st') = dom (bfs_explored st) ∪ list_to_set new).
  { rewrite Hdom. apply set_eq. intros x.
    rewrite !elem_of_union, !elem_of_list_to_set, Hnew.
    destruct (decide (x ∈ dom (bfs_explored st))); naive_solver. }
  assert (Hdisj : dom (bfs_explored st) ## list_to_set (C:=gset Z) new).
  { intros x Hx. rewrite elem_of_list_to_set, Hnew. naive_solver. }
  split; [split|].
  - done.
  - rewrite Hr', Hr, Hdom', size_union, size_list_to_set by done. lia.
  - set_solver.
  - intros v. rewrite Hdom. intros [Hv|Hv%elem_of_list_to_set]%elem_of_union; [auto|].
    destruct (Hsound u Hu) as (s & Hs & Hsu). exists s. split; [done|].
    eapply rtc_r; [done|]. by apply Hedge.
  - rewrite HQ'. apply NoDup_app. split_and!; [done| |done].
    intros x Hx. rewrite Hnew. intros [_ []]. apply Hqueue. by right.
  - intros q. rewrite HQ', Hdom, elem_of_app, Hnew, elem_of_union, elem_of_list_to_set.
    intros [Hq|[Hq _]]; [left; apply Hqueue; by right | by right].
  - intros x v. rewrite HQ', Hdom', !elem_of_union, elem_of_app, !elem_of_list_to_set.
    intros [Hx|Hx] Hnot Hxv; [|naive_solver].
    destruct (decide (x = u)) as [->|Hne].
    + apply Hedge in Hxv.
      destruct (decide (v ∈ dom (bfs_explored st))); [by left|].
      right. by apply Hnew.
    + left. apply (Hclosed x v); [done| |done].
      rewrite elem_of_cons. naive_solver.
  - intros k. rewrite HAeq, HA'. destruct (A0 !! k); [done|].
    rewrite HQ', Hdom'.
    assert ((k = u ∨ k ∈ dom (bfs_explored st) ∧ k ∉ u :: Q') ↔
            (k ∈ dom (bfs_explored st) ∪ list_to_set new ∧ k ∉ Q' ++ new)) as Hiff.
    { rewrite elem_of_union, elem_of_app, elem_of_cons, elem_of_list_to_set.
      pose proof (Hnew k). destruct (decide (k = u)) as [->|]; naive_solver. }
    repeat case_decide; naive_solver.
  - rewrite HQ', length_app.
    assert (targets A0 ∖ dom (bfs_explored st) =
            list_to_set new ∪ targets A0 ∖ dom (bfs_explored st')) as ->.
    { rewrite Hdom'. apply set_eq. intros x.
      rewrite elem_of_union, !elem_of_difference, elem_of_union, !elem_of_list_to_set.
      pose proof (Hnew x) as Hx. pose proof (Htargets x) as HT. clear -Hx HT.
      destruct (decide (x ∈ new)); tauto. }
    assert (list_to_set (C:=gset Z) new ## targets A0 ∖ dom (bfs_explored st')) as Hdisj'.
    { intros x. rewrite elem_of_list_to_set, elem_of_difference, Hdom', elem_of_union,
        elem_of_list_to_set. tauto. }
    rewrite (size_union (list_to_set new) (targets A0 ∖ dom (bfs_explored st')) Hdisj').
    rewrite size_list_to_set by done. lia.
Qed.

(** ** The search loop as a whole *)

Lemma bfs_init_inv A S :
  bfs_inv A S (bfs_init A S) ∧ (bfs_measure A (bfs_init A S) ≤ bfs_fuel A S)%nat.
Proof.
  unfold bfs_init, bfs_measure, bfs_fuel.
  destruct (seed_fold (sorted_elements S) (BfsState 0 [] ∅ A) all_true_empty)
    as (He & HA & Hdom & HQ & Hr).
  simpl in *. set (st := fold_left seed_step _ _) in *.
  rewrite dom_empty_L, (left_id_L ∅ (∪)), list_to_set_sorted_elements in Hdom.
  rewrite length_sorted_elements in Hr.
  split; [split|].
  - done.
  - rewrite Hdom, Hr. lia.
  - by rewrite Hdom.
  - intros v. rewrite Hdom. intros Hv. exists v. split; [done | apply rtc_refl].
  - rewrite HQ. apply NoDup_sorted_elements.
  - intros q. by rewrite HQ, Hdom, elem_of_sorted_elements.
  - intros u v. rewrite HQ, Hdom, elem_of_sorted_elements. tauto.
  - intros k. rewrite HA, HQ, Hdom. destruct (A !! k); [done|].
    rewrite decide_False; [done|]. rewrite elem_of_sorted_elements. tauto.
  - rewrite HQ, Hdom, length_sorted_elements.
    assert (size (targets A ∖ S) ≤ size (targets A))%nat; [|lia].
    apply subseteq_size. set_solver.
Qed.

Lemma bfs_loop_inv A S fuel : ∀ st,
  bfs_inv A S st → bfs_inv A S (bfs_loop fuel st).
Proof.
  induction fuel as [|fuel IH]; intros st Hinv; simpl; [done|].
  destruct (bfs_Q st) as [|u Q'] eqn:HQ; [done|].
  apply IH. by destruct (bfs_step_inv A S st u Q').
Qed.

Lemma bfs_loop_done A S fuel : ∀ st,
  bfs_inv A S st → (bfs_measure A st ≤ fuel)%nat → bfs_Q (bfs_loop fuel st) = [].
Proof.
  induction fuel as [|fuel IH]; intros st Hinv Hm; simpl.
  - unfold bfs_measure in Hm. destruct (bfs_Q st); [done | simpl in Hm; lia].
  - destruct (bfs_Q st) as [|u Q'] eqn:HQ; [done|].
    destruct (bfs_step_inv A S st u Q') as [Hinv' Hm']; [done..|].
    apply IH; [done | lia].
Qed.

Lemma bfs_loop_more n m : ∀ st,
  bfs_Q (bfs_loop n st) = [] → bfs_loop (n + m) st = bfs_loop n st.
Proof.
  induction n as [|n IH]; intros st; simpl.
  - intros HQ. destruct m; simpl; [done | by rewrite HQ].
  - destruct (bfs_Q st); [done | apply IH].
Qed.

Lemma bfs_final_inv A S : bfs_inv A S (bfs_final A S).
Proof. apply bfs_loop_inv, bfs_init_inv. Qed.

Lemma bfs_final_queue_empty A S : bfs_Q (bfs_final A S) = [].
Proof. apply (bfs_loop_done A S); apply bfs_init_inv. Qed.

Lemma bfs_fuel_enough A S fuel :
  (bfs_fuel A S ≤ fuel)%nat → bfs_loop fuel (bfs_init A S) = bfs_final A S.
Proof.
  intros Hle. replace fuel with (bfs_fuel A S + (fuel - bfs_fuel A S))%nat by lia.
  apply bfs_loop_more, bfs_final_queue_empty.
Qed.

(** ** What the search computes *)

Lemma elem_of_reach_set A S v : v ∈ reach_set A S ↔ reachable A S v.
Proof.
  unfold reach_set. pose proof (bfs_final_inv A S) as Hinv.
  pose proof (bfs_final_queue_empty A S) as HQ.
  split; [apply (inv_sound _ _ _ Hinv)|].
  intros (s & Hs & Hsv). revert v Hsv. apply rtc_ind_r.
  - by apply (inv_seeds _ _ _ Hinv).
  - intros u v _ Huv Hu. apply (inv_closed _ _ _ Hinv u v); [done | | done].
    rewrite HQ. apply not_elem_of_nil.
Qed.

Lemma reachable_from_count A S :
  (reachable_from A S).1 = Z.of_nat (size (reach_set A S)).
Proof. apply (inv_count _ _ _ (bfs_final_inv A S)). Qed.

Lemma reachable_from_cascade A S k :
  (reachable_from A S).2 !! k =
    match A !! k with
    | Some vs => Some vs
    | None => if decide (k ∈ reach_set A S) then Some [] else None
    end.
Proof.
  simpl. rewrite (inv_A _ _ _ (bfs_final_inv A S)). destruct (A !! k); [done|].
  rewrite bfs_final_queue_empty. unfold reach_set.
  pose proof (not_elem_of_nil k). repeat case_decide; tauto.
Qed.

Lemma reach_set_seeds A S : S ⊆ reach_set A S.
Proof. apply (inv_seeds _ _ _ (bfs_final_inv A S)). Qed.

Lemma reach_set_mono A S T : S ⊆ T → reach_set A S ⊆ reach_set A T.
Proof.
  intros HST v. rewrite !elem_of_reach_set. intros (s & Hs & Hsv).
  exists s. split; [by apply HST | done].
Qed.

Lemma reachable_from_mono A S T :
  S ⊆ T → (reachable_from A S).1 ≤ (reachable_from A T).1.
Proof.
  intros HST. rewrite !reachable_from_count. apply inj_le.
  by apply subseteq_size, reach_set_mono.
Qed.

Lemma reachable_from_ge_seeds A S : Z.of_nat (size S) ≤ (reachable_from A S).1.
Proof.
  rewrite reachable_from_count. apply inj_le, subseteq_size, reach_set_seeds.
Qed.

(** ** What holds for every interpretation of [double] *)

Section any_arithmetic.
Context (F : double_ops).

Lemma influence_loop_frame S cs : ∀ acc, (influence_loop F S acc cs).2 = cs.
Proof.
  induction cs as [|A cs IH]; intros acc; [done|]. cbn [influence_loop].
  unfold influence_step. destruct (reachable_from A S) as [r A'].
  specialize (IH (d_add F acc (d_of_int F r))).
  destruct (influence_loop F S _ cs) as [total cs']. simpl in *. by subst cs'.
Qed.

Lemma influence_loop_total S cs : ∀ acc,
  (influence_loop F S acc cs).1 =
    fold_left (λ a A, d_add F a (d_of_int F (reachable_from A S).1)) cs acc.
Proof.
  induction cs as [|A cs IH]; intros acc; [done|]. cbn [influence_loop fold_left].
  unfold influence_step. destruct (reachable_from A S) as [r A'].
  rewrite <- IH. by destruct (influence_loop F S _ cs).
Qed.

Lemma calculate_influence_frame cs S : (calculate_influence F cs S).2 = cs.
Proof.
  unfold calculate_influence.
  pose proof (influence_loop_frame S cs (d_zero F)) as Hframe.
  by destruct (influence_loop F S (d_zero F) cs).
Qed.

Lemma calculate_influence_unfold cs S :
  (calculate_influence F cs S).1 =
    d_div F
      (fold_left (λ a A, d_add F a (d_of_int F (reachable_from A S).1)) cs (d_zero F))
      (d_of_size F (length cs)).
Proof.
  unfold calculate_influence.
  pose proof (influence_loop_frame S cs (d_zero F)) as Hframe.
  rewrite <- influence_loop_total.
  destruct (influence_loop F S (d_zero F) cs) as [total cs']. simpl in *. by subst cs'.
Qed.

Lemma candidate_step_frame cs S prev best u :
  candidate_step F S prev (cs, best) u = (cs, candidate_best F cs S prev best u).
Proof.
  unfold candidate_step, candidate_best. case_decide; [done|].
  pose proof (calculate_influence_frame cs ({[u]} ∪ S)) as Hframe.
  destruct (calculate_influence F cs ({[u]} ∪ S)) as [i cs']. simpl in *. subst cs'.
  by destruct (d_gtb F _ _).
Qed.

Lemma candidate_fold cs S prev l : ∀ best,
  fold_left (candidate_step F S prev) l (cs, best) =
    (cs, fold_left (candidate_best F cs S prev) l best).
Proof.
  induction l as [|u l IH]; intros best; [done|]. cbn [fold_left].
  by rewrite candidate_step_frame, IH.
Qed.

Lemma greedy_round_unfold V cs S prev :
  greedy_round F V (SelectorState F cs S prev) =
    let best := fold_left (candidate_best F cs S prev) (sorted_elements V) (round_best0 F) in
    SelectorState F cs ({[max_delta_node best]} ∪ S) (max_influence best).
Proof.
  unfold greedy_round. cbn [sel_S sel_cascades previous_influence].
  by rewrite candidate_fold.
Qed.

Lemma candidate_scan_none cs S prev l : ∀ best,
  Forall (λ u, u ∈ S) l → fold_left (candidate_best F cs S prev) l best = best.
Proof.
  induction l as [|u l IH]; intros best Hall; [done|]. cbn [fold_left].
  apply Forall_cons in Hall as [Hu Hall]. rewrite IH by done.
  unfold candidate_best. by rewrite decide_True.
Qed.

(** A round entered with no eligible node inserts the initial value of
    [max_delta_node] and stores the initial value of [max_influence]. *)
Lemma greedy_round_exhausted V cs S prev :
  V ⊆ S →
  greedy_round F V (SelectorState F cs S prev) =
    SelectorState F cs ({[-1]} ∪ S) (d_minus_one F).
Proof.
  intros HVS. rewrite greedy_round_unfold. cbn zeta.
  rewrite candidate_scan_none; [done|].
  apply Forall_forall. intros u Hu%elem_of_sorted_elements. by apply HVS.
Qed.

Lemma greedy_rounds_S V cs k :
  greedy_rounds F V cs (S k) = greedy_round F V (greedy_rounds F V cs k).
Proof. done. Qed.

Lemma greedy_round_grows V st : sel_S st ⊆ sel_S (greedy_round F V st).
Proof.
  unfold greedy_round. destruct (fold_left _ _ _) as [cs best]. simpl. set_solver.
Qed.

Lemma greedy_rounds_grow V cs j k :
  (j ≤ k)%nat → sel_S (greedy_rounds F V cs j) ⊆ sel_S (greedy_rounds F V cs k).
Proof.
  induction 1 as [|k Hle IH]; [done|].
  rewrite greedy_rounds_S. etrans; [apply IH | apply greedy_round_grows].
Qed.

End any_arithmetic.

(** ** Arithmetic on [double] *)

Section double_facts.
Local Open Scope Qc_scope.
Implicit Types p q : Qc.

Lemma Qc_ltb_lt p q : Qc_ltb p q = true ↔ p < q.
Proof.
  unfold Qc_ltb. rewrite Qclt_alt. destruct (p ?= q); split; congruence.
Qed.

Lemma Qc_ltb_ge p q : Qc_ltb p q = false ↔ q ≤ p.
Proof.
  rewrite Qcle_ngt, <- Qc_ltb_lt. destruct (Qc_ltb p q); split; congruence.
Qed.

Lemma Qc_eqb_eq p q : Qc_eqb p q = true ↔ p = q.
Proof.
  unfold Qc_eqb. rewrite Qceq_alt. destruct (p ?= q); split; congruence.
Qed.

Lemma Qc_eqb_neq p q : Qc_eqb p q = false ↔ p ≠ q.
Proof.
  rewrite <- Qc_eqb_eq. destruct (Qc_eqb p q); split; congruence.
Qed.

Lemma double_eqb_eq a b : double_eqb a b = true → a = b.
Proof.
  destruct a as [p|s|], b as [q|t|]; simpl; try done.
  - by intros ->%Qc_eqb_eq.
  - by intros ->%Bool.eqb_prop.
Qed.

Lemma leb_fin p q : leb (DFin p) (DFin q) = true ↔ p ≤ q.
Proof. simpl. by rewrite negb_true_iff, Qc_ltb_ge. Qed.

Lemma ltb_fin p q : ltb (DFin p) (DFin q) = true ↔ p < q.
Proof. apply Qc_ltb_lt. Qed.

Lemma Qc_of_nat_pos n : (0 < n)%nat → 0 < Qc_of_Z (Z.of_nat n).
Proof. intros Hn. rewrite <- Z2Qc_inj_0, <- Z2Qc_inj_lt. lia. Qed.

Lemma Qcdiv_le_mono_pos p q r : 0 < r → p ≤ q → p / r ≤ q / r.
Proof.
  intros Hr Hpq. unfold Qcdiv. apply Qcmult_le_mono_nonneg_r; [|done].
  apply Qclt_le_weak. by apply Qcinv_pos.
Qed.
End double_facts.

(** ** [calculate_influence] as a value *)

Lemma total_reach_cons A cs S :
  total_reach (A :: cs) S = (reachable_from A S).1 + total_reach cs S.
Proof. done. Qed.

Lemma influence_loop_spec S cs : ∀ q,
  influence_loop exact_ops S (DFin q) cs = (DFin (q + Qc_of_Z (total_reach cs S))%Qc, cs).
Proof.
  induction cs as [|A cs IH]; intros q.
  - change (total_reach [] S) with 0. cbn [influence_loop].
    by rewrite Z2Qc_inj_0, Qcplus_0_r.
  - rewrite total_reach_cons. cbn [influence_loop]. unfold influence_step.
    destruct (reachable_from A S) as [r A'] eqn:Hr.
    cbn [d_add d_of_int exact_ops add of_int of_Z fst].
    rewrite IH, Z2Qc_inj_add. by rewrite (assoc_L Qcplus).
Qed.

Lemma calculate_influence_empty S : calculate_influence exact_ops [] S = (DNaN, []).
Proof. done. Qed.

Lemma calculate_influence_nonempty cs S :
  cs ≠ [] → calculate_influence exact_ops cs S = (DFin (influence_value cs S), cs).
Proof.
  intros Hcs. unfold calculate_influence. cbn [d_zero exact_ops]. unfold zero, of_Z.
  rewrite influence_loop_spec, Z2Qc_inj_0, Qcplus_0_l. simpl.
  assert (Qc_eqb (Qc_of_Z (Z.of_nat (length cs))) 0%Qc = false) as ->; [|done].
  apply Qc_eqb_neq. intros Heq.
  assert (0 < Qc_of_Z (Z.of_nat (length cs)))%Qc as Hpos.
  { apply Qc_of_nat_pos. destruct cs; [done | apply Nat.lt_0_succ]. }
  rewrite Heq in Hpos. by apply Qclt_not_eq in Hpos.
Qed.

Lemma total_reach_mono cs S T : S ⊆ T → total_reach cs S ≤ total_reach cs T.
Proof.
  intros HST. induction cs as [|A cs IH]; [done|]. rewrite !total_reach_cons.
  pose proof (reachable_from_mono A S T HST). lia.
Qed.

Lemma total_reach_nonneg cs S : 0 ≤ total_reach cs S.
Proof.
  induction cs as [|A cs IH]; [done|]. rewrite total_reach_cons.
  pose proof (reachable_from_ge_seeds A S). lia.
Qed.

Lemma influence_value_mono cs S T :
  cs ≠ [] → S ⊆ T → (influence_value cs S ≤ influence_value cs T)%Qc.
Proof.
  intros Hcs HST. unfold influence_value. apply Qcdiv_le_mono_pos.
  - apply Qc_of_nat_pos. destruct cs; [done | apply Nat.lt_0_succ].
  - rewrite <- Z2Qc_inj_le. by apply total_reach_mono.
Qed.

Lemma influence_value_nonneg cs S : cs ≠ [] → (0 ≤ influence_value cs S)%Qc.
Proof.
  intros Hcs. unfold influence_value.
  replace 0%Qc with (0 / Qc_of_Z (Z.of_nat (length cs)))%Qc
    by (unfold Qcdiv; apply Qcmult_0_l).
  apply Qcdiv_le_mono_pos.
  - apply Qc_of_nat_pos. destruct cs; [done | apply Nat.lt_0_succ].
  - rewrite <- Z2Qc_inj_0, <- Z2Qc_inj_le. apply total_reach_nonneg.
Qed.

(** ** One round of the greedy loop *)

Section candidate_scan.
Local Open Scope Qc_scope.
Context (cs : list (gmap Z (list Z))) (S : gset Z) (p : Qc).
Hypothesis cs_nonempty : cs ≠ [].

Lemma candidate_best_eligible d i n u :
  u ∉ S →
  candidate_best exact_ops cs S (DFin p) (RoundBest exact_ops (DFin d) i n) u =
    if Qc_ltb d (candidate_value cs S u - p)
    then RoundBest exact_ops (DFin (candidate_value cs S u - p))
                             (DFin (candidate_value cs S u)) u
    else RoundBest exact_ops (DFin d) i n.
Proof.
  intros Hu. unfold candidate_best. rewrite decide_False by done.
  by rewrite calculate_influence_nonempty.
Qed.

Lemma candidate_scan_some l :
  (∀ u, u ∈ l → u ∉ S → Qc_of_Z (-1) < candidate_value cs S u - p) →
  Exists (λ u, u ∉ S) l →
  ∃ u l1 l2,
    l = l1 ++ u :: l2 ∧
    (u ∉ S) ∧
    fold_left (candidate_best exact_ops cs S (DFin p)) l (round_best0 exact_ops) =
      RoundBest exact_ops (DFin (candidate_value cs S u - p))
                          (DFin (candidate_value cs S u)) u ∧
    (∀ w, w ∈ l1 → w ∉ S → candidate_value cs S w < candidate_value cs S u) ∧
    (∀ w, w ∈ l2 → w ∉ S → candidate_value cs S w ≤ candidate_value cs S u).
Proof.
  induction l as [|x l IH] using rev_ind; intros Hdelta Hex.
  { by apply Exists_nil in Hex. }
  rewrite fold_left_app. cbn [fold_left].
  destruct (decide (x ∈ S)) as [Hx|Hx].
  - destruct IH as (u & l1 & l2 & -> & Hu & Hfold & Hl1 & Hl2).
    { intros u Hu. apply Hdelta, elem_of_app. by left. }
    { apply Exists_app in Hex as [Hex|Hex]; [done|].
      apply Exists_cons in Hex as [Hex|Hex]; [done | by apply Exists_nil in Hex]. }
    exists u, l1, (l2 ++ [x]). split_and!; [by rewrite <- app_assoc | done | | done |].
    + rewrite Hfold. unfold candidate_best. by rewrite decide_True.
    + intros w [Hw|Hw%list_elem_of_singleton]%elem_of_app Hw'; [by apply Hl2|].
      by subst w.
  - destruct (decide (Exists (λ u, u ∉ S) l)) as [Hex'|Hnone].
    + destruct IH as (u & l1 & l2 & -> & Hu & Hfold & Hl1 & Hl2); [|done|].
      { intros u Hu. apply Hdelta, elem_of_app. by left. }
      rewrite Hfold, candidate_best_eligible by done.
      destruct (Qc_ltb (candidate_value cs S u - p) (candidate_value cs S x - p)) eqn:Hcmp.
      * apply Qc_ltb_lt in Hcmp. unfold Qcminus in Hcmp.
        apply Qcplus_lt_mono_r in Hcmp.
        exists x, (l1 ++ u :: l2), []. split_and!; [done..| |].
        -- intros w Hw Hw'. apply Qcle_lt_trans with (candidate_value cs S u); [|done].
           apply elem_of_app in Hw as [Hw|Hw]; [by apply Qclt_le_weak, Hl1|].
           apply elem_of_cons in Hw as [->|Hw]; [apply Qcle_refl | by apply Hl2].
        -- by intros w ?%not_elem_of_nil.
      * apply Qc_ltb_ge in Hcmp. unfold Qcminus in Hcmp.
        apply Qcplus_le_mono_r in Hcmp.
        exists u, l1, (l2 ++ [x]).
        split_and!; [by rewrite <- app_assoc | done.. |].
        intros w [Hw|Hw%list_elem_of_singleton]%elem_of_app Hw'; [by apply Hl2|].
        by subst w.
    + assert (fold_left (candidate_best exact_ops cs S (DFin p)) l (round_best0 exact_ops)
              = round_best0 exact_ops) as ->.
      { apply candidate_scan_none. apply Forall_forall. intros w Hw.
        destruct (decide (w ∈ S)); [done|]. destruct Hnone.
        apply Exists_exists. eauto. }
      unfold round_best0. cbn [d_minus_one exact_ops]. unfold minus_one, of_Z.
      rewrite candidate_best_eligible by done.
      assert (Qc_ltb (Qc_of_Z (-1)) (candidate_value cs S x - p) = true) as ->.
      { apply Qc_ltb_lt, Hdelta; [|done]. apply elem_of_app. right. by left. }
      exists x, l, []. split_and!; [done..| |].
      * intros w Hw Hw'. destruct Hnone. apply Exists_exists. eauto.
      * by intros w ?%not_elem_of_nil.
Qed.
End candidate_scan.

(** ** Rounds of the greedy loop *)

Lemma sorted_before (l1 l2 : list Z) u w :
  StronglySorted Z.le (l1 ++ u :: l2) → w ∈ l1 ++ u :: l2 → w < u → w ∈ l1.
Proof.
  intros Hsorted Hw Hlt. apply elem_of_app in Hw as [Hw|Hw]; [done|].
  apply StronglySorted_app_1_r, StronglySorted_inv in Hsorted as [_ Hall].
  apply elem_of_cons in Hw as [->|Hw]; [lia|].
  rewrite Forall_forall in Hall. specialize (Hall w Hw). lia.
Qed.

Lemma greedy_round_select V cs S (p : Qc) :
  cs ≠ [] →
  (∀ u, u ∈ V → u ∉ S →
     (Qc_of_Z (-1) < influence_value cs ({[u]} ∪ S) - p)%Qc) →
  (∃ w, w ∈ V ∧ w ∉ S) →
  ∃ u, u ∈ V ∧ (u ∉ S) ∧
    greedy_round exact_ops V (SelectorState exact_ops cs S (DFin p)) =
      SelectorState exact_ops cs ({[u]} ∪ S) (DFin (influence_value cs ({[u]} ∪ S))) ∧
    (∀ w, w ∈ V → w ∉ S →
       (influence_value cs ({[w]} ∪ S) ≤ influence_value cs ({[u]} ∪ S))%Qc) ∧
    (∀ w, w ∈ V → w ∉ S → w < u →
       (influence_value cs ({[w]} ∪ S) < influence_value cs ({[u]} ∪ S))%Qc).
Proof.
  intros Hcs Hdelta (w0 & Hw0 & Hw0').
  destruct (candidate_scan_some cs S p Hcs (sorted_elements V))
    as (u & l1 & l2 & Hl & Hu & Hfold & Hl1 & Hl2).
  { intros u Hu%elem_of_sorted_elements. by apply Hdelta. }
  { apply Exists_exists. exists w0. by rewrite elem_of_sorted_elements. }
  assert (Hin : ∀ w, w ∈ V ↔ w ∈ l1 ++ u :: l2).
  { intros w. by rewrite <- Hl, elem_of_sorted_elements. }
  exists u. split_and!.
  - apply Hin, elem_of_app. right. by left.
  - done.
  - rewrite greedy_round_unfold. cbn zeta. by rewrite Hfold.
  - intros w Hw Hw'. apply Hin, elem_of_app in Hw as [Hw|Hw].
    + by apply Qclt_le_weak, Hl1.
    + apply elem_of_cons in Hw as [->|Hw]; [apply Qcle_refl | by apply Hl2].
  - intros w Hw Hw' Hlt. apply Hl1; [|done].
    apply (sorted_before l1 l2 u w); [|by apply Hin|done].
    rewrite <- Hl. apply sorted_elements_ascending.
Qed.

Lemma eligible_exists (V S : gset Z) :
  S ⊆ V → (size S < size V)%nat → ∃ w, w ∈ V ∧ w ∉ S.
Proof.
  intros HSV Hlt. destruct (set_choose_or_empty (V ∖ S)) as [[w Hw]|Hempty].
  - exists w. set_solver.
  - assert (V ⊆ S) as HVS by set_solver.
    apply subseteq_size in HVS. lia.
Qed.

Lemma delta_above_sentinel (a p : Qc) : (p ≤ a)%Qc → (Qc_of_Z (-1) < a - p)%Qc.
Proof.
  intros Hle. apply Qclt_le_trans with 0%Qc.
  - rewrite <- Z2Qc_inj_0, <- Z2Qc_inj_lt. lia.
  - replace 0%Qc with (p - p)%Qc by apply Qcplus_opp_r.
    unfold Qcminus. by apply Qcplus_le_mono_r.
Qed.

(** The state at the start of round [k], while nodes remain. *)
Lemma greedy_rounds_inv V cs k :
  cs ≠ [] → (k ≤ size V)%nat →
  ∃ S, greedy_rounds exact_ops V cs k =
         SelectorState exact_ops cs S
           (match k with O => zero | _ => DFin (influence_value cs S) end) ∧
       S ⊆ V ∧ size S = k.
Proof.
  intros Hcs. induction k as [|k IH]; intros Hk.
  - exists ∅. split_and!; [done | set_solver | apply size_empty].
  - destruct IH as (S & Hst & HSV & Hsize); [lia|].
    set (p := match k with O => Qc_of_Z 0 | _ => influence_value cs S end).
    assert (Hst' : greedy_rounds exact_ops V cs k = SelectorState exact_ops cs S (DFin p)).
    { rewrite Hst. unfold p. by destruct k. }
    destruct (greedy_round_select V cs S p Hcs) as (u & HuV & HuS & Hround & _).
    { intros u HuV HuS. apply delta_above_sentinel. unfold p. destruct k.
      - rewrite Z2Qc_inj_0. by apply influence_value_nonneg.
      - apply influence_value_mono; [done | set_solver]. }
    { apply eligible_exists; [done | lia]. }
    exists ({[u]} ∪ S). rewrite greedy_rounds_S, Hst', Hround.
    split_and!; [done | set_solver |].
    rewrite size_union, size_singleton by set_solver. lia.
Qed.

(** What round [k] does while nodes remain. *)
Lemma greedy_rounds_select V cs k :
  cs ≠ [] → (k < size V)%nat →
  ∃ S u,
    sel_S (greedy_rounds exact_ops V cs k) = S ∧ u ∈ V ∧ (u ∉ S) ∧
    greedy_rounds exact_ops V cs (Datatypes.S k) =
      SelectorState exact_ops cs ({[u]} ∪ S) (DFin (influence_value cs ({[u]} ∪ S))) ∧
    (∀ w, w ∈ V → w ∉ S →
       (influence_value cs ({[w]} ∪ S) ≤ influence_value cs ({[u]} ∪ S))%Qc) ∧
    (∀ w, w ∈ V → w ∉ S → w < u →
       (influence_value cs ({[w]} ∪ S) < influence_value cs ({[u]} ∪ S))%Qc).
Proof.
  intros Hcs Hk.
  destruct (greedy_rounds_inv V cs k Hcs) as (S & Hst & HSV & Hsize); [lia|].
  set (p := match k with O => Qc_of_Z 0 | _ => influence_value cs S end).
  assert (Hst' : greedy_rounds exact_ops V cs k = SelectorState exact_ops cs S (DFin p)).
  { rewrite Hst. unfold p. by destruct k. }
  destruct (greedy_round_select V cs S p Hcs) as (u & HuV & HuS & Hround & Hmax & Hfirst).
  { intros u HuV HuS. apply delta_above_sentinel. unfold p. destruct k.
    - rewrite Z2Qc_inj_0. by apply influence_value_nonneg.
    - apply influence_value_mono; [done | set_solver]. }
  { apply eligible_exists; [done | lia]. }
  exists S, u. rewrite greedy_rounds_S, Hst', Hround. by rewrite Hst' in *.
Qed.

Lemma greedy_rounds_full V cs :
  cs ≠ [] → sel_S (greedy_rounds exact_ops V cs (size V)) = V.
Proof.
  intros Hcs. destruct (greedy_rounds_inv V cs (size V) Hcs) as (S & -> & HSV & Hsize); [done|].
  simpl. apply set_eq. intros x. split; [apply HSV|].
  intros Hx. destruct (decide (x ∈ S)) as [|Hn]; [done|].
  assert ({[x]} ∪ S ⊆ V) as Hsub by set_solver.
  apply subseteq_size in Hsub. rewrite size_union, size_singleton in Hsub by set_solver. lia.
Qed.

Lemma eligible_round V cs k :
  cs ≠ [] →
  (∃ w, w ∈ V ∧ w ∉ sel_S (greedy_rounds exact_ops V cs k)) →
  (k < size V)%nat.
Proof.
  intros Hcs (w & HwV & Hw). destruct (decide (k < size V)%nat) as [|Hge]; [done|].
  destruct Hw. apply (greedy_rounds_grow exact_ops V cs (size V) k); [lia|].
  by rewrite greedy_rounds_full.
Qed.

(** Every round after the universe is exhausted inserts the initial value of
    [max_delta_node] and stores the initial value of [max_influence]. *)
Lemma greedy_rounds_past_universe V cs k :
  cs ≠ [] → (size V < k)%nat →
  greedy_rounds exact_ops V cs k = SelectorState exact_ops cs ({[-1]} ∪ V) minus_one.
Proof.
  intros Hcs Hk. induction Hk as [|k Hk IH].
  - rewrite greedy_rounds_S.
    pose proof (greedy_rounds_full V cs Hcs) as Hfull.
    destruct (greedy_rounds_inv V cs (size V) Hcs) as (S & Hst & _); [done|].
    rewrite Hst in Hfull |- *. simpl in Hfull. subst S.
    by apply greedy_round_exhausted.
  - rewrite greedy_rounds_S, IH, greedy_round_exhausted by set_solver.
    f_equal. set_solver.
Qed.

(** ** Closed facts about the scenarios *)

Lemma reach_set_empty A : reach_set A ∅ = ∅.
Proof.
  apply set_eq. intros v. rewrite elem_of_reach_set. split; [|set_solver].
  intros (s & Hs & _). set_solver.
Qed.

Lemma reach_set_sink A s : A !! s = None → reach_set A {[s]} = {[s]}.
Proof.
  intros Hs. apply set_eq. intros v. rewrite elem_of_reach_set, elem_of_singleton.
  split.
  - intros (s' & ->%elem_of_singleton & Hsv).
    destruct Hsv as [|x y z (vs & Hvs & _) _]; [done | congruence].
  - intros ->. exists s. split; [set_solver | apply rtc_refl].
Qed.

Lemma reach_set_bound A S : reach_set A S ⊆ S ∪ targets A.
Proof.
  intros v. rewrite elem_of_reach_set, elem_of_union. intros (s & Hs & Hsv).
  apply rtc_inv_r in Hsv as [->|(u & _ & vs & Hvs & Hv)]; [by left|].
  right. by eapply elem_of_targets.
Qed.

Lemma cascade_C_gains_entry :
  (reachable_from Scenario.cascade_C {[1]}).2 !! 2 = Some [] ∧
  Scenario.cascade_C !! 2 = None.
Proof. split; vm_compute; reflexivity. Qed.

Lemma b64_zero_div_zero :
  d_div binary64_ops (d_zero binary64_ops) (d_of_size binary64_ops 0) = S754_nan.
Proof. reflexivity. Qed.

(** In binary64 the average of two counts below 64 is computed without
    rounding error. *)
Lemma b64_average_table :
  forallb (λ r1, forallb (b64_average_exact r1) (seqZ 0 64)) (seqZ 0 64) = true.
Proof. vm_compute. reflexivity. Qed.

Lemma b64_average_small r1 r2 :
  0 ≤ r1 < 64 → 0 ≤ r2 < 64 →
  b64_average_of_two r1 r2 = binary_normalize 53 1024 (r1 + r2) (-1) false.
Proof.
  intros H1 H2. pose proof b64_average_table as Htable.
  rewrite forallb_forall in Htable.
  specialize (Htable r1). rewrite forallb_forall in Htable.
  assert (In r1 (seqZ 0 64)) as Hin1 by (apply list_elem_of_In, elem_of_seqZ; lia).
  assert (In r2 (seqZ 0 64)) as Hin2 by (apply list_elem_of_In, elem_of_seqZ; lia).
  specialize (Htable Hin1 r2 Hin2). by apply bool_decide_eq_true in Htable.
Qed.

Lemma calculate_influence_two_binary64 A1 A2 S :
  (calculate_influence binary64_ops [A1; A2] S).1 =
    b64_average_of_two (reachable_from A1 S).1 (reachable_from A2 S).1.
Proof. by rewrite calculate_influence_unfold. Qed.

(** With at most [|V|] rounds the recorded influence never decreases. *)
Lemma influence_trace_nondecreasing V cs k i a b :
  cs ≠ [] → (k ≤ size V)%nat →
  influence_trace exact_ops V cs k !! i = Some a →
  influence_trace exact_ops V cs k !! Datatypes.S i = Some b →
  leb a b = true.
Proof.
  intros Hcs Hk. unfold influence_trace. rewrite !list_lookup_fmap.
  intros Ha Hb.
  destruct (seq 0 k !! i) as [i'|] eqn:Hi; [|done].
  destruct (seq 0 k !! Datatypes.S i) as [j'|] eqn:Hj; [|done].
  apply lookup_seq in Hi as [-> _]. apply lookup_seq in Hj as [-> Hlt].
  cbn [fmap option_fmap option_map Nat.add] in Ha, Hb.
  injection Ha as <-. injection Hb as <-.
  destruct (greedy_rounds_select V cs (Datatypes.S i) Hcs)
    as (S & u & HS & _ & _ & Hnext & _); [lia|].
  destruct (greedy_rounds_inv V cs (Datatypes.S i) Hcs) as (S' & Hst & _); [lia|].
  rewrite <- (greedy_rounds_S exact_ops V cs i).
  rewrite <- (greedy_rounds_S exact_ops V cs (Datatypes.S i)).
  rewrite Hnext, Hst. rewrite Hst in HS. cbn [sel_S] in HS. subst S'.
  cbn [previous_influence].
  apply leb_fin, influence_value_mono; [done | set_solver].
Qed.

(** ** The comparison of doubles as an order *)

Lemma exact_ordered : ordered_arithmetic exact_ops (λ x, x ≠ DNaN).
Proof.
  split; cbn [d_gtb exact_ops]; unfold gtb.
  - intros [p|[]|]; cbn; [|done..]. apply Qc_ltb_ge, Qcle_refl.
  - intros [p|[]|] [q|[]|] [r|[]|]; cbn; try done.
    rewrite !Qc_ltb_lt. intros H1 H2. by apply Qclt_trans with q.
  - intros [p|[]|] [q|[]|] [r|[]|] Hc; cbn; try done.
    rewrite Qc_ltb_lt, Qc_ltb_ge, Qc_ltb_lt. intros H1 H2. by apply Qcle_lt_trans with q.
Qed.

Ltac compare_cases :=
  repeat match goal with
  | |- context [(?x ?= ?y)%Z] => destruct (Z.compare_spec x y)
  | |- context [Pos.compare_cont Eq ?x ?y] =>
      change (Pos.compare_cont Eq x y) with (Pos.compare x y);
      destruct (Pos.compare_spec x y)
  end.

Lemma SFltb_irrefl a : SFltb a a = false.
Proof.
  unfold SFltb, SFcompare. destruct a as [[]|[]| |[] m e]; try done;
    compare_cases; try done; lia.
Qed.

Lemma SFltb_trans a b c : SFltb a b = true → SFltb b c = true → SFltb a c = true.
Proof.
  unfold SFltb, SFcompare.
  destruct a as [[]|[]| |[] ma ea], b as [[]|[]| |[] mb eb], c as [[]|[]| |[] mc ec];
    try done; compare_cases; cbn; intros; subst; try done; lia.
Qed.

Lemma SFltb_below a b c :
  c ≠ S754_nan → SFltb b a = true → SFltb b c = false → SFltb c a = true.
Proof.
  unfold SFltb, SFcompare.
  destruct a as [[]|[]| |[] ma ea], b as [[]|[]| |[] mb eb], c as [[]|[]| |[] mc ec];
    try done; compare_cases; cbn; intros; subst; try done; lia.
Qed.

Lemma binary64_ordered : ordered_arithmetic binary64_ops (λ x, x ≠ S754_nan).
Proof.
  split; cbn [d_gtb binary64_ops]; unfold b64_gtb.
  - apply SFltb_irrefl.
  - intros a b c H1 H2. by apply SFltb_trans with b.
  - intros a b c. apply SFltb_below.
Qed.

(** ** The choice of a round, for every ordered arithmetic *)

Section first_maximizer.
Context (F : double_ops) (number : dbl F → Prop) (Hord : ordered_arithmetic F number).
Context (cs : list (gmap Z (list Z))) (S : gset Z) (prev : dbl F).

Lemma candidate_best_unfold best u :
  u ∉ S →
  candidate_best F cs S prev best u =
    if d_gtb F (candidate_delta F cs S prev u) (max_delta best)
    then RoundBest F (candidate_delta F cs S prev u)
                     (calculate_influence F cs ({[u]} ∪ S)).1 u
    else best.
Proof. intros Hu. unfold candidate_best, candidate_delta. by rewrite decide_False. Qed.

(** The loop over the candidates keeps the last node whose [delta] exceeded
    the running maximum: it exceeds every candidate before it and no
    candidate after it exceeds it. *)
Lemma candidate_scan_order l :
  (∀ w, w ∈ l → w ∉ S → number (candidate_delta F cs S prev w)) →
  (fold_left (candidate_best F cs S prev) l (round_best0 F) = round_best0 F ∧
   ∀ w, w ∈ l → w ∉ S →
     d_gtb F (candidate_delta F cs S prev w) (d_minus_one F) = false) ∨
  (∃ l1 u l2,
     l = l1 ++ u :: l2 ∧ (u ∉ S) ∧
     fold_left (candidate_best F cs S prev) l (round_best0 F) =
       RoundBest F (candidate_delta F cs S prev u)
                   (calculate_influence F cs ({[u]} ∪ S)).1 u ∧
     (∀ w, w ∈ l1 → w ∉ S →
        d_gtb F (candidate_delta F cs S prev u) (candidate_delta F cs S prev w) = true) ∧
     (∀ w, w ∈ l2 → w ∉ S →
        d_gtb F (candidate_delta F cs S prev w) (candidate_delta F cs S prev u) = false)).
Proof.
  induction l as [|x l IH] using rev_ind; intros Hnum.
  { left. split; [done|]. by intros w ?%elem_of_nil. }
  rewrite fold_left_app. cbn [fold_left].
  destruct IH as [[Hbest Hnone]|(l1 & u & l2 & -> & Hu & Hbest & Hbefore & Hafter)].
  { intros w Hw. apply Hnum, elem_of_app. by left. }
  - rewrite Hbest. destruct (decide (x ∈ S)) as [Hx|Hx].
    { left. split.
      - unfold candidate_best. by rewrite decide_True.
      - intros w [Hw|Hw%list_elem_of_singleton]%elem_of_app Hw'; [by apply Hnone | by subst w]. }
    rewrite candidate_best_unfold by done. cbn [max_delta round_best0].
    destruct (d_gtb F (candidate_delta F cs S prev x) (d_minus_one F)) eqn:Hgt.
    + right. exists l, x, []. split_and!; [done..| |by intros w ?%elem_of_nil].
      intros w Hw Hw'. apply (gtb_below F number Hord) with (d_minus_one F); [|done|].
      * apply Hnum; [|done]. apply elem_of_app. by left.
      * by apply Hnone.
    + left. split; [done|].
      intros w [Hw|Hw%list_elem_of_singleton]%elem_of_app Hw'; [by apply Hnone | by subst w].
  - rewrite Hbest. destruct (decide (x ∈ S)) as [Hx|Hx].
    { right. exists l1, u, (l2 ++ [x]). split_and!.
      - by rewrite <- app_assoc.
      - done.
      - unfold candidate_best. by rewrite decide_True.
      - done.
      - intros w [Hw|Hw%list_elem_of_singleton]%elem_of_app Hw'; [by apply Hafter | by subst w]. }
    rewrite candidate_best_unfold by done. cbn [max_delta].
    destruct (d_gtb F (candidate_delta F cs S prev x) (candidate_delta F cs S prev u)) eqn:Hgt.
    + right. exists (l1 ++ u :: l2), x, []. split_and!; [done..| |by intros w ?%elem_of_nil].
      intros w Hw Hw'. apply elem_of_app in Hw as [Hw|Hw].
      * apply (gtb_trans F number Hord) with (candidate_delta F cs S prev u); [done|].
        by apply Hbefore.
      * apply elem_of_cons in Hw as [->|Hw]; [done|].
        apply (gtb_below F number Hord) with (candidate_delta F cs S prev u); [|done|].
        -- apply Hnum; [|done]. apply elem_of_app. left. apply elem_of_app. right. by right.
        -- by apply Hafter.
    + right. exists l1, u, (l2 ++ [x]). split_and!; [by rewrite <- app_assoc | done..|].
      intros w [Hw|Hw%list_elem_of_singleton]%elem_of_app Hw'; [by apply Hafter | by subst w].
Qed.

(** A round in which the [delta] of some eligible node exceeds [-1.0]. *)
Lemma greedy_round_first_max V :
  (∀ w, w ∈ V → w ∉ S → number (candidate_delta F cs S prev w)) →
  (∃ w, w ∈ V ∧ (w ∉ S) ∧
        d_gtb F (candidate_delta F cs S prev w) (d_minus_one F) = true) →
  ∃ u, u ∈ V ∧ (u ∉ S) ∧
    greedy_round F V (SelectorState F cs S prev) =
      SelectorState F cs ({[u]} ∪ S) (calculate_influence F cs ({[u]} ∪ S)).1 ∧
    (∀ w, w ∈ V → w ∉ S →
       d_gtb F (candidate_delta F cs S prev w) (candidate_delta F cs S prev u) = false) ∧
    (∀ w, w ∈ V → w ∉ S → w < u →
       d_gtb F (candidate_delta F cs S prev u) (candidate_delta F cs S prev w) = true).
Proof.
  intros Hnum (w0 & Hw0 & Hw0S & Hw0gt).
  destruct (candidate_scan_order (sorted_elements V))
    as [[_ Hnone]|(l1 & u & l2 & Hl & Hu & Hbest & Hbefore & Hafter)].
  { intros w Hw%elem_of_sorted_elements. by apply Hnum. }
  { rewrite Hnone in Hw0gt; [done | by apply elem_of_sorted_elements | done]. }
  assert (Hin : ∀ w, w ∈ V ↔ w ∈ l1 ++ u :: l2).
  { intros w. by rewrite <- Hl, elem_of_sorted_elements. }
  exists u. split_and!.
  - apply Hin, elem_of_app. right. by left.
  - done.
  - rewrite greedy_round_unfold. cbn zeta. by rewrite Hbest.
  - intros w Hw Hw'. apply Hin, elem_of_app in Hw as [Hw|Hw].
    + destruct (d_gtb F (candidate_delta F cs S prev w) (candidate_delta F cs S prev u))
        eqn:Hgt; [|done].
      pose proof (gtb_trans F number Hord _ _ _ Hgt (Hbefore w Hw Hw')) as Hrefl.
      by rewrite (gtb_irrefl F number Hord) in Hrefl.
    + apply elem_of_cons in Hw as [->|Hw]; [apply (gtb_irrefl F number Hord) | by apply Hafter].
  - intros w Hw Hw' Hlt. apply Hbefore; [|done].
    apply (sorted_before l1 l2 u w); [|by apply Hin|done].
    rewrite <- Hl. apply sorted_elements_ascending.
Qed.

End first_maximizer.

(** A round in which the [delta] of no eligible node exceeds [-1.0] leaves
    the round-local variables at their initial values. *)
Lemma candidate_scan_unbeaten F cs S prev l :
  (∀ w, w ∈ l → w ∉ S →
     d_gtb F (candidate_delta F cs S prev w) (d_minus_one F) = false) →
  fold_left (candidate_best F cs S prev) l (round_best0 F) = round_best0 F.
Proof.
  induction l as [|x l IH]; intros Hnone; [done|]. cbn [fold_left].
  assert (candidate_best F cs S prev (round_best0 F) x = round_best0 F) as ->.
  { unfold candidate_best. case_decide; [done|].
    fold (candidate_delta F cs S prev x). cbn [max_delta round_best0].
    rewrite Hnone; [done | by left | done]. }
  apply IH. intros w Hw. apply Hnone. by right.
Qed.

Lemma greedy_round_unbeaten F V cs S prev :
  (∀ w, w ∈ V → w ∉ S →
     d_gtb F (candidate_delta F cs S prev w) (d_minus_one F) = false) →
  greedy_round F V (SelectorState F cs S prev) =
    SelectorState F cs ({[-1]} ∪ S) (d_minus_one F).
Proof.
  intros Hnone. rewrite greedy_round_unfold. cbn zeta.
  rewrite candidate_scan_unbeaten; [done|].
  intros w Hw%elem_of_sorted_elements. by apply Hnone.
Qed.

Lemma greedy_rounds_cascades F V cs k : sel_cascades (greedy_rounds F V cs k) = cs.
Proof.
  induction k as [|k IH]; [done|]. rewrite greedy_rounds_S.
  destruct (greedy_rounds F V cs k) as [cs' S prev]. cbn [sel_cascades] in IH. subst cs'.
  by rewrite greedy_round_unfold.
Qed.

(** * The claims *)

(** C1, evaluated on the code.  In the third round on the universe {1, 2}
    with the single edge 1→2 no node is eligible: the loop inserts the initial
    value [-1] of [max_delta_node], which is not a node of the universe and
    the candidate set of no eligible node, and stores [-1.0].  With [K = 1],
    the value the program ships with, the same happens when the cascade files
    hold no edge.  On the single cascade with edges (1,2), (1,3), (2,4) and
    [K = 1] the loop chooses node 1 and ends with influence 4.0, as
    claimed. *)
Theorem greedy_round_without_candidate :
  sel_S (greedy_rounds binary64_ops Scenario.universe_C [Scenario.cascade_C] 2) =
    Scenario.universe_C ∧
  greedy binary64_ops Scenario.universe_C [Scenario.cascade_C] 3 =
    ({[-1]} ∪ Scenario.universe_C, b64_of_Z (-1)) ∧
  (-1 ∉ Scenario.universe_C) ∧
  ¬ (∃ u, u ∈ Scenario.universe_C ∧
       sel_S (greedy_rounds binary64_ops Scenario.universe_C [Scenario.cascade_C] 3) =
         {[u]} ∪ sel_S (greedy_rounds binary64_ops Scenario.universe_C
                          [Scenario.cascade_C] 2)) ∧
  greedy binary64_ops ∅ [∅] 1 = ({[-1]}, b64_of_Z (-1)) ∧
  sel_S (greedy_rounds exact_ops Scenario.universe_C [Scenario.cascade_C] 3) =
    {[-1]} ∪ Scenario.universe_C ∧
  greedy exact_ops Scenario.universe_A [Scenario.cascade_A] 1 = ({[1]}, of_Z 4) ∧
  greedy binary64_ops Scenario.universe_A [Scenario.cascade_A] 1 = ({[1]}, b64_of_Z 4).
Proof.
  assert (H2 : sel_S (greedy_rounds binary64_ops Scenario.universe_C [Scenario.cascade_C] 2) =
                 Scenario.universe_C) by (vm_compute; reflexivity).
  assert (H3 : greedy binary64_ops Scenario.universe_C [Scenario.cascade_C] 3 =
                 ({[-1]} ∪ Scenario.universe_C, b64_of_Z (-1))) by (vm_compute; reflexivity).
  assert (Hout : -1 ∉ Scenario.universe_C)
    by (clear; unfold Scenario.universe_C; set_solver).
  split_and!; [exact H2 | exact H3 | exact Hout | | | | |].
  - apply (f_equal fst) in H3. unfold greedy in H3. cbn [fst] in H3.
    change (Z.to_nat 3) with 3%nat in H3. rewrite H3, H2. clear H2 H3.
    intros (u & Hu & Heq). apply Hout.
    assert ({[u]} ∪ Scenario.universe_C = Scenario.universe_C) as Hsame
      by (clear -Hu; set_solver).
    rewrite <- Hsame, <- Heq. clear. set_solver.
  - vm_compute. reflexivity.
  - vm_compute. reflexivity.
  - unfold greedy. apply pair_equal_spec. split.
    + vm_compute. reflexivity.
    + apply double_eqb_eq. vm_compute. reflexivity.
  - vm_compute. reflexivity.
Qed.

(** C2, evaluated on the code.  With the universe {1, 2}, the single edge
    1→2 and [K = 5], rounds three to five find no eligible node, insert the
    initial value [-1] of [max_delta_node] and store the initial value
    [-1.0] of [max_influence]: the seed set has three elements, one of them
    outside the universe, and the reported influence is negative.  The same
    happens with [K = 1], the value the program ships with, when the
    universe is empty. *)
Theorem greedy_past_universe_scenario :
  greedy exact_ops Scenario.universe_C [Scenario.cascade_C] 5 = ({[-1; 1; 2]}, of_Z (-1)) ∧
  greedy binary64_ops Scenario.universe_C [Scenario.cascade_C] 5 =
    ({[-1; 1; 2]}, b64_of_Z (-1)) ∧
  size (greedy exact_ops Scenario.universe_C [Scenario.cascade_C] 5).1 = 3%nat ∧
  (-1 ∉ Scenario.universe_C) ∧
  ltb (greedy exact_ops Scenario.universe_C [Scenario.cascade_C] 5).2 zero = true ∧
  SFltb (greedy binary64_ops Scenario.universe_C [Scenario.cascade_C] 5).2 b64_zero = true ∧
  greedy binary64_ops ∅ [∅] 1 = ({[-1]}, b64_of_Z (-1)).
Proof.
  split_and!; [..|vm_compute; reflexivity].
  - unfold greedy. apply pair_equal_spec. split.
    + vm_compute. reflexivity.
    + apply double_eqb_eq. vm_compute. reflexivity.
  - vm_compute. reflexivity.
  - vm_compute. reflexivity.
  - apply (bool_decide_unpack _). vm_compute. exact I.
  - vm_compute. reflexivity.
  - vm_compute. reflexivity.
Qed.

(** C3, as the code has it.  Applied to an empty cascade collection,
    [calculate_influence] performs the division unguarded: it evaluates
    [0.0 / 0] and returns NaN, for every seed set; the function has no way
    to signal an error. *)
Theorem calculate_influence_empty_is_nan (S : gset Z) :
  (calculate_influence exact_ops [] S).1 = DNaN ∧
  (calculate_influence binary64_ops [] S).1 = S754_nan.
Proof.
  split.
  - by rewrite calculate_influence_empty.
  - unfold calculate_influence. cbn [influence_loop length fst].
    apply b64_zero_div_zero.
Qed.

(** C3, as the specification states it, fails: for the seed set {1} and no
    cascades the returned value is NaN and not [0.0]. *)
Lemma calculate_influence_empty_unguarded :
  (calculate_influence exact_ops [] {[1]}).1 = DNaN ∧
  (calculate_influence exact_ops [] {[1]}).1 ≠ zero ∧
  (calculate_influence binary64_ops [] {[1]}).1 = S754_nan ∧
  (calculate_influence binary64_ops [] {[1]}).1 ≠ b64_zero.
Proof. split_and!; [reflexivity | discriminate | reflexivity | discriminate]. Qed.

(** C4.  For every cascade [A] and seed set [S], [reachable_from] returns the
    number of distinct nodes reachable from [S] along directed edges: there
    is a finite set holding exactly the reachable nodes, seeds included, and
    the result is its size.  The empty seed set gives 0, every non-empty
    seed set gives at least [|S|], and a seed that is not a key of the
    adjacency mapping is counted once and expands no further. *)
Theorem reachable_from_counts_reachable (A : gmap Z (list Z)) (S : gset Z) :
  (∃ R : gset Z,
     (∀ v, v ∈ R ↔ reachable A S v) ∧
     (reachable_from A S).1 = Z.of_nat (size R)) ∧
  (reachable_from A ∅).1 = 0 ∧
  (S ≠ ∅ → Z.of_nat (size S) ≤ (reachable_from A S).1) ∧
  (∀ s, A !! s = None → (reachable_from A {[s]}).1 = 1).
Proof.
  split_and!.
  - exists (reach_set A S). split; [apply elem_of_reach_set | apply reachable_from_count].
  - by rewrite reachable_from_count, reach_set_empty, size_empty.
  - intros _. apply reachable_from_ge_seeds.
  - intros s Hs. by rewrite reachable_from_count, reach_set_sink, size_singleton.
Qed.

Lemma reachable_from_counts_reachable_witness :
  ({[1; 5]} : gset Z) ≠ ∅ ∧ Scenario.cascade_C !! 7 = None ∧
  Z.of_nat (size ({[1; 5]} : gset Z)) ≤ (reachable_from Scenario.cascade_C {[1; 5]}).1 ∧
  (reachable_from Scenario.cascade_C {[7]}).1 = 1.
Proof.
  assert (H1 : ({[1; 5]} : gset Z) ≠ ∅) by (by vm_compute).
  assert (H2 : Scenario.cascade_C !! 7 = None) by (vm_compute; reflexivity).
  split_and!; [done | done | |].
  - apply (reachable_from_counts_reachable Scenario.cascade_C {[1; 5]}), H1.
  - apply (reachable_from_counts_reachable Scenario.cascade_C {[1; 5]}), H2.
Defined.

(** C5, as the code has it.  [reachable_from] removes and modifies no entry
    of the cascade it receives by reference, but [A[u]] adds an entry with an
    empty adjacency list for every reached node that is not yet a key; no
    other key is added.  The seed set is only read. *)
Theorem reachable_from_adds_empty_entries (A : gmap Z (list Z)) (S : gset Z) :
  (∀ k vs, A !! k = Some vs → (reachable_from A S).2 !! k = Some vs) ∧
  (∀ k, A !! k = None → reachable A S k → (reachable_from A S).2 !! k = Some []) ∧
  (∀ k, A !! k = None → ¬ reachable A S k → (reachable_from A S).2 !! k = None).
Proof.
  split_and!.
  - intros k vs Hk. by rewrite reachable_from_cascade, Hk.
  - intros k Hk Hreach. rewrite reachable_from_cascade, Hk.
    by rewrite decide_True by (by apply elem_of_reach_set).
  - intros k Hk Hreach. rewrite reachable_from_cascade, Hk.
    by rewrite decide_False by (by rewrite elem_of_reach_set).
Qed.

Lemma reachable_from_adds_empty_entries_witness :
  Scenario.cascade_C !! 1 = Some [2] ∧
  Scenario.cascade_C !! 2 = None ∧
  reachable Scenario.cascade_C {[1]} 2 ∧
  (reachable_from Scenario.cascade_C {[1]}).2 !! 1 = Some [2] ∧
  (reachable_from Scenario.cascade_C {[1]}).2 !! 2 = Some [].
Proof.
  assert (H1 : Scenario.cascade_C !! 1 = Some [2]) by (vm_compute; reflexivity).
  assert (H2 : Scenario.cascade_C !! 2 = None) by (vm_compute; reflexivity).
  assert (H3 : reachable Scenario.cascade_C {[1]} 2).
  { exists 1. split; [by apply elem_of_singleton|].
    apply rtc_once. exists [2]. split; [done | by apply list_elem_of_singleton]. }
  split_and!; [done | done | done | |].
  - apply (reachable_from_adds_empty_entries Scenario.cascade_C {[1]}), H1.
  - by apply (reachable_from_adds_empty_entries Scenario.cascade_C {[1]}).
Defined.

(** C5, as the specification states it, fails: with the single edge 1→2 and
    the seed set {1}, the cascade comes back with the additional key 2. *)
Lemma reachable_from_changes_cascade :
  (reachable_from Scenario.cascade_C {[1]}).2 ≠ Scenario.cascade_C.
Proof.
  intros Heq. pose proof cascade_C_gains_entry as [Hnew Hold].
  rewrite Heq in Hnew. congruence.
Qed.

(** C6.  For every cascade [A] and seed sets [S ⊆ T], the count for [S] is
    at most the count for [T]; consequently [calculate_influence] over a
    fixed cascade collection never decreases when the candidate set grows,
    and over a non-empty collection the value for [S] is [<=] the value for
    [T]. *)
Theorem reachable_from_monotone (A : gmap Z (list Z)) (S T : gset Z) :
  S ⊆ T →
  (reachable_from A S).1 ≤ (reachable_from A T).1 ∧
  ∀ cs : list (gmap Z (list Z)),
    let influence X := (calculate_influence exact_ops cs X).1 in
    ltb (influence T) (influence S) = false ∧
    (cs ≠ [] → leb (influence S) (influence T) = true).
Proof.
  intros HST. split; [by apply reachable_from_mono|]. intros cs influence.
  subst influence. cbn beta.
  destruct (decide (cs = [])) as [->|Hcs]; [done|].
  rewrite !calculate_influence_nonempty by done. cbn [fst].
  pose proof (influence_value_mono cs S T Hcs HST) as Hle. split.
  - by apply Qc_ltb_ge.
  - intros _. by apply leb_fin.
Qed.

Lemma reachable_from_monotone_witness :
  ({[1]} : gset Z) ⊆ {[1; 3]} ∧
  (reachable_from Scenario.cascade_A {[1]}).1 ≤ (reachable_from Scenario.cascade_A {[1; 3]}).1 ∧
  leb (calculate_influence exact_ops [Scenario.cascade_A] {[1]}).1
      (calculate_influence exact_ops [Scenario.cascade_A] {[1; 3]}).1 = true.
Proof.
  assert (H : ({[1]} : gset Z) ⊆ {[1; 3]}).
  { apply (bool_decide_unpack _). vm_compute. exact I. }
  destruct (reachable_from_monotone Scenario.cascade_A {[1]} {[1; 3]} H) as [Hr Hi].
  split_and!; [done | done |].
  by apply (Hi [Scenario.cascade_A]).
Defined.

(** C7.  For every non-empty cascade collection and every seed set,
    [calculate_influence] returns the sum of the per-cascade results of
    [reachable_from] divided by the number of cascades; for two cascades
    with counts [r1] and [r2] the value is exactly [(r1 + r2) / 2]. *)
Theorem calculate_influence_is_average :
  (∀ (F : double_ops) (cs : list (gmap Z (list Z))) (S : gset Z),
     (calculate_influence F cs S).1 =
       d_div F
         (fold_left (λ sum A, d_add F sum (d_of_int F (reachable_from A S).1))
                    cs (d_zero F))
         (d_of_size F (length cs))) ∧
  (∀ (cs : list (gmap Z (list Z))) (S : gset Z),
     cs ≠ [] →
     (calculate_influence exact_ops cs S).1 =
       DFin (Qcdiv (Qc_of_Z (total_reach cs S)) (Qc_of_Z (Z.of_nat (length cs))))) ∧
  (∀ (A1 A2 : gmap Z (list Z)) (S : gset Z),
     (calculate_influence exact_ops [A1; A2] S).1 =
       DFin (Qcdiv (Qc_of_Z ((reachable_from A1 S).1 + (reachable_from A2 S).1))
                   (Qc_of_Z 2))) ∧
  ((reachable_from Scenario.cascade_A {[1]}).1 = 4 ∧
   (reachable_from Scenario.cycle {[1]}).1 = 3 ∧
   (calculate_influence binary64_ops [Scenario.cascade_A; Scenario.cycle] {[1]}).1 =
     binary_normalize 53 1024 7 (-1) false).
Proof.
  split_and!; [| | |vm_compute; reflexivity..].
  - apply calculate_influence_unfold.
  - intros cs S Hcs. by rewrite calculate_influence_nonempty.
  - intros A1 A2 S. rewrite calculate_influence_nonempty by done.
    unfold influence_value. rewrite !total_reach_cons.
    change (total_reach [] S) with 0. by rewrite Z.add_0_r.
Qed.

Lemma calculate_influence_is_average_witness :
  [Scenario.cascade_A; Scenario.cycle] ≠ [] ∧
  (calculate_influence exact_ops [Scenario.cascade_A; Scenario.cycle] {[1]}).1 =
    DFin (Qcdiv (Qc_of_Z (total_reach [Scenario.cascade_A; Scenario.cycle] {[1]}))
                (Qc_of_Z (Z.of_nat (length [Scenario.cascade_A; Scenario.cycle])))).
Proof.
  assert (H : [Scenario.cascade_A; Scenario.cycle] ≠ []) by discriminate.
  split; [done|].
  apply (proj1 (proj2 calculate_influence_is_average)
           [Scenario.cascade_A; Scenario.cycle] {[1]} H).
Defined.

(** C8.  For every cascade, cyclic or not, the search loop of
    [reachable_from] terminates: within [bfs_fuel A S] iterations the queue
    is empty, and allowing more iterations changes nothing.  Each node is
    counted at most once: the result is the number of distinct marked nodes
    and is bounded by the number of distinct seeds and edge targets.  On the
    cycle 1→2, 2→3, 3→1 with seed set {1} the result is exactly 3. *)
Theorem reachable_from_terminates (A : gmap Z (list Z)) (S : gset Z) :
  bfs_Q (bfs_final A S) = [] ∧
  (∀ fuel, (bfs_fuel A S ≤ fuel)%nat → bfs_loop fuel (bfs_init A S) = bfs_final A S) ∧
  (reachable_from A S).1 = Z.of_nat (size (dom (bfs_explored (bfs_final A S)))) ∧
  (reachable_from A S).1 ≤ Z.of_nat (size (S ∪ targets A)) ∧
  (reachable_from Scenario.cycle {[1]}).1 = 3.
Proof.
  split_and!.
  - apply bfs_final_queue_empty.
  - apply bfs_fuel_enough.
  - apply reachable_from_count.
  - rewrite reachable_from_count. apply inj_le, subseteq_size, reach_set_bound.
  - vm_compute. reflexivity.
Qed.

Lemma reachable_from_terminates_witness :
  (bfs_fuel Scenario.cycle {[1%Z]} ≤ 100)%nat ∧
  bfs_loop 100 (bfs_init Scenario.cycle {[1]}) = bfs_final Scenario.cycle {[1]}.
Proof.
  assert (H : (bfs_fuel Scenario.cycle {[1%Z]} ≤ 100)%nat).
  { apply Nat.leb_le. vm_compute. reflexivity. }
  split; [done|].
  by apply (reachable_from_terminates Scenario.cycle {[1]}).
Defined.

(** C9, evaluated on the code.  With the universe {1, 2}, the single edge
    1→2 and three rounds, the values of [previous_influence] recorded at the
    end of the rounds are 2.0, 2.0 and -1.0: the last round, which finds no
    eligible node, lowers the value. *)
Theorem influence_trace_drops_past_universe :
  influence_trace exact_ops Scenario.universe_C [Scenario.cascade_C] 3 =
    [of_Z 2; of_Z 2; of_Z (-1)] ∧
  ltb (of_Z (-1)) (of_Z 2) = true ∧
  influence_trace binary64_ops Scenario.universe_C [Scenario.cascade_C] 3 =
    [b64_of_Z 2; b64_of_Z 2; b64_of_Z (-1)] ∧
  SFltb (b64_of_Z (-1)) (b64_of_Z 2) = true.
Proof.
  split_and!; [|vm_compute; reflexivity..].
  unfold influence_trace. cbn [seq fmap list_fmap].
  repeat (apply (f_equal2 cons); [apply double_eqb_eq; vm_compute; reflexivity|]).
  reflexivity.
Qed.

(** C10.  [calculate_influence] leaves the cascade collection it receives
    unchanged: each call of [reachable_from] works on a by-value copy, so the
    entries it inserts never reach the stored cascades.  With the single edge
    1→2 and the seed set {1}, the call inserts the key 2 into its copy while
    the stored cascade stays as it was. *)
Theorem calculate_influence_preserves_cascades :
  (∀ (F : double_ops) (cs : list (gmap Z (list Z))) (S : gset Z),
     (calculate_influence F cs S).2 = cs) ∧
  ((reachable_from Scenario.cascade_C {[1]}).2 !! 2 = Some [] ∧
   Scenario.cascade_C !! 2 = None ∧
   (calculate_influence binary64_ops [Scenario.cascade_C] {[1]}).2 = [Scenario.cascade_C]).
Proof.
  split; [apply calculate_influence_frame|].
  pose proof cascade_C_gains_entry as [Hnew Hold].
  split_and!; [done | done | apply calculate_influence_frame].
Qed.

(** * Further properties of the program *)

(** ** More about [reachable_from] *)

Lemma edge_default A u v : edge A u v ↔ v ∈ default [] (A !! u).
Proof.
  unfold edge. destruct (A !! u) as [vs|]; simpl.
  - split; [by intros (? & [= <-] & ?) | eauto].
  - split; [by intros (? & [=] & _) | by intros ?%not_elem_of_nil].
Qed.

Lemma reachable_ext A B S v :
  (∀ u w, edge A u w ↔ edge B u w) → reachable A S v → reachable B S v.
Proof.
  intros Hext (s & Hs & Hsv). exists s. split; [done|].
  eapply rtc_subrel; [|done]. intros x y. by apply Hext.
Qed.

Lemma reach_set_ext A B S :
  (∀ u w, edge A u w ↔ edge B u w) → reach_set A S = reach_set B S.
Proof.
  intros Hext. apply set_eq. intros v. rewrite !elem_of_reach_set.
  split; apply reachable_ext; [done|]. intros u w. symmetry. apply Hext.
Qed.

Lemma reach_set_union A S T : reach_set A (S ∪ T) = reach_set A S ∪ reach_set A T.
Proof.
  apply set_eq. intros v. rewrite elem_of_union, !elem_of_reach_set. unfold reachable.
  split.
  - intros (s & [Hs|Hs]%elem_of_union & Hsv); [left|right]; eauto.
  - intros [(s & Hs & Hsv)|(s & Hs & Hsv)]; exists s; (split; [set_solver | done]).
Qed.

Lemma reach_set_closed A S u :
  reachable A S u → reach_set A {[u]} ⊆ reach_set A S.
Proof.
  intros (s & Hs & Hsu) v. rewrite !elem_of_reach_set.
  intros (u' & ->%elem_of_singleton & Huv). exists s. split; [done|].
  by etrans.
Qed.

Lemma reach_set_absorb A S u :
  reachable A S u → reach_set A ({[u]} ∪ S) = reach_set A S.
Proof.
  intros Hu. rewrite reach_set_union.
  pose proof (reach_set_closed A S u Hu). set_solver.
Qed.

(** The gain of one more seed, as the size of what it newly reaches. *)
Lemma reach_gain A S u :
  (reachable_from A ({[u]} ∪ S)).1 - (reachable_from A S).1 =
    Z.of_nat (size (reach_set A {[u]} ∖ reach_set A S)).
Proof.
  rewrite !reachable_from_count, reach_set_union.
  rewrite (comm_L (∪) (reach_set A {[u]})), size_union_alt. lia.
Qed.

Lemma edges_of_result A S u v :
  edge (reachable_from A S).2 u v ↔ edge A u v.
Proof.
  rewrite !edge_default, reachable_from_cascade.
  destruct (A !! u) as [vs|]; simpl; [done|].
  case_decide; simpl; [|done]. done.
Qed.

(** X1.  The count depends only on which nodes each node points to: two
    cascades with the same edges give the same count, whatever the order of
    the adjacency lists, the repetitions in them, or the keys with an empty
    list. *)
Theorem reachable_from_edges_only (A B : gmap Z (list Z)) (S : gset Z) :
  (∀ u v, edge A u v ↔ edge B u v) →
  (reachable_from A S).1 = (reachable_from B S).1.
Proof.
  intros Hext. by rewrite !reachable_from_count, (reach_set_ext A B S Hext).
Qed.

Lemma reachable_from_edges_only_witness :
  (∀ u v, edge {[ 1 := [2; 3; 2] ]} u v ↔ edge {[ 1 := [3; 2]; 2 := [] ]} u v) ∧
  (reachable_from {[ 1 := [2; 3; 2] ]} {[1]}).1 =
    (reachable_from {[ 1 := [3; 2]; 2 := [] ]} {[1]}).1.
Proof.
  assert (H : ∀ u v, edge {[ 1 := [2; 3; 2] ]} u v ↔ edge {[ 1 := [3; 2]; 2 := [] ]} u v).
  { intros u v. rewrite !edge_default.
    destruct (decide (u = 1)) as [->|]; [|destruct (decide (u = 2)) as [->|]];
      simplify_map_eq; set_solver. }
  split; [done|]. by apply reachable_from_edges_only.
Defined.

(** X2.  When no seed has an outgoing edge, as in a cascade without edges,
    the count is the number of seeds. *)
Theorem reachable_from_without_edges (A : gmap Z (list Z)) (S : gset Z) :
  (∀ s v, s ∈ S → ¬ edge A s v) →
  (reachable_from A S).1 = Z.of_nat (size S).
Proof.
  intros Hnone. rewrite reachable_from_count. f_equal. f_equal.
  apply set_eq. intros v. rewrite elem_of_reach_set. split.
  - intros (s & Hs & Hsv). destruct Hsv as [|s y v Hsy _]; [done|].
    by destruct (Hnone s y).
  - intros Hv. exists v. split; [done | apply rtc_refl].
Qed.

Lemma reachable_from_without_edges_witness :
  (∀ s v, s ∈ ({[4; 9]} : gset Z) → ¬ edge Scenario.cascade_A s v) ∧
  (reachable_from Scenario.cascade_A {[4; 9]}).1 = Z.of_nat (size ({[4; 9]} : gset Z)).
Proof.
  assert (H : ∀ s v, s ∈ ({[4; 9]} : gset Z) → ¬ edge Scenario.cascade_A s v).
  { intros s v Hs. rewrite edge_default. unfold Scenario.cascade_A.
    assert (s = 4 ∨ s = 9) as [-> | ->] by set_solver; simplify_map_eq; set_solver. }
  split; [done|]. by apply reachable_from_without_edges.
Defined.

(** X3.  Adding a node that the seeds already reach does not change the
    count. *)
Theorem reachable_from_absorbs (A : gmap Z (list Z)) (S : gset Z) (u : Z) :
  reachable A S u →
  (reachable_from A ({[u]} ∪ S)).1 = (reachable_from A S).1.
Proof.
  intros Hu. by rewrite !reachable_from_count, reach_set_absorb.
Qed.

Lemma reachable_from_absorbs_witness :
  reachable Scenario.cascade_A {[1]} 4 ∧
  (reachable_from Scenario.cascade_A ({[4]} ∪ {[1]})).1 =
    (reachable_from Scenario.cascade_A {[1]}).1.
Proof.
  assert (H : reachable Scenario.cascade_A {[1]} 4).
  { exists 1. split; [by apply elem_of_singleton|].
    apply rtc_l with 2; [|apply rtc_once]; apply edge_default;
      unfold Scenario.cascade_A; simplify_map_eq; set_solver. }
  split; [done|]. by apply reachable_from_absorbs.
Defined.

(** X4.  The count has diminishing returns: for seed sets [S ⊆ T], adding a
    node [u] to [T] gains at most what adding it to [S] gains. *)
Theorem reachable_from_submodular (A : gmap Z (list Z)) (S T : gset Z) (u : Z) :
  S ⊆ T →
  (reachable_from A ({[u]} ∪ T)).1 - (reachable_from A T).1 ≤
  (reachable_from A ({[u]} ∪ S)).1 - (reachable_from A S).1.
Proof.
  intros HST. rewrite !reach_gain. apply inj_le, subseteq_size.
  pose proof (reach_set_mono A S T HST). set_solver.
Qed.

Lemma reachable_from_submodular_witness :
  ({[3]} : gset Z) ⊆ {[3; 2]} ∧
  (reachable_from Scenario.cascade_A ({[1]} ∪ {[3; 2]})).1
    - (reachable_from Scenario.cascade_A {[3; 2]}).1 ≤
  (reachable_from Scenario.cascade_A ({[1]} ∪ {[3]})).1
    - (reachable_from Scenario.cascade_A {[3]}).1.
Proof.
  assert (H : ({[3]} : gset Z) ⊆ {[3; 2]}).
  { apply (bool_decide_unpack _). vm_compute. exact I. }
  split; [done|]. by apply reachable_from_submodular.
Defined.

(** X5.  A second call on the cascade that a call has left behind returns the
    same count and changes nothing any more. *)
Theorem reachable_from_twice (A : gmap Z (list Z)) (S : gset Z) :
  reachable_from (reachable_from A S).2 S = reachable_from A S.
Proof.
  assert (Hsets : reach_set (reachable_from A S).2 S = reach_set A S).
  { apply reach_set_ext. intros u v. apply edges_of_result. }
  apply injective_projections.
  - by rewrite !reachable_from_count, Hsets.
  - apply map_eq. intros k.
    rewrite (reachable_from_cascade (reachable_from A S).2), Hsets.
    rewrite reachable_from_cascade.
    destruct (A !! k); [done|]. by case_decide.
Qed.

(** ** More about [calculate_influence] *)

Lemma elem_of_targets_inv A v : v ∈ targets A → ∃ u vs, A !! u = Some vs ∧ v ∈ vs.
Proof.
  unfold targets. rewrite elem_of_union_list.
  intros (X & HX & Hv). apply list_elem_of_fmap in HX as ([u vs] & -> & Hkv).
  apply elem_of_map_to_list in Hkv. apply elem_of_list_to_set in Hv. eauto.
Qed.

Lemma reachable_from_le_universe A S V :
  nodes A ⊆ V → S ⊆ V → (reachable_from A S).1 ≤ Z.of_nat (size V).
Proof.
  intros HA HS. rewrite reachable_from_count. apply inj_le, subseteq_size.
  pose proof (reach_set_bound A S). unfold nodes in HA. set_solver.
Qed.

Lemma total_reach_bounds cs S V :
  Forall (λ A, nodes A ⊆ V) cs → S ⊆ V →
  Z.of_nat (size S) * Z.of_nat (length cs) ≤ total_reach cs S ≤
    Z.of_nat (size V) * Z.of_nat (length cs).
Proof.
  intros Hcs HS. induction Hcs as [|A cs HA Hcs IH].
  - change (total_reach [] S) with 0. simpl. lia.
  - rewrite total_reach_cons.
    pose proof (reachable_from_ge_seeds A S).
    pose proof (reachable_from_le_universe A S V HA HS).
    cbn [length]. lia.
Qed.

Lemma Qc_div_bounds (lo hi t n : Z) :
  0 < n → lo * n ≤ t ≤ hi * n →
  (Qc_of_Z lo ≤ Qc_of_Z t / Qc_of_Z n ∧ Qc_of_Z t / Qc_of_Z n ≤ Qc_of_Z hi)%Qc.
Proof.
  intros Hn [Hlo Hhi].
  assert (0 < Qc_of_Z n)%Qc as Hpos by (rewrite <- Z2Qc_inj_0, <- Z2Qc_inj_lt; lia).
  assert (Qc_of_Z n ≠ 0%Qc) as Hne by (intros Heq; rewrite Heq in Hpos; by apply Qclt_not_eq in Hpos).
  split.
  - rewrite <- (Qcdiv_mult_l (Qc_of_Z lo) (Qc_of_Z n)) at 1 by done.
    apply Qcdiv_le_mono_pos; [done|]. rewrite <- Z2Qc_inj_mul, <- Z2Qc_inj_le. done.
  - rewrite <- (Qcdiv_mult_l (Qc_of_Z hi) (Qc_of_Z n)) at 1 by done.
    apply Qcdiv_le_mono_pos; [done|]. rewrite <- Z2Qc_inj_mul, <- Z2Qc_inj_le. done.
Qed.

Lemma total_reach_perm cs cs' S : cs ≡ₚ cs' → total_reach cs S = total_reach cs' S.
Proof.
  induction 1 as [|A cs cs' _ IH|A B cs|cs1 cs2 cs3 _ IH1 _ IH2].
  - done.
  - by rewrite !total_reach_cons, IH.
  - rewrite !total_reach_cons. lia.
  - congruence.
Qed.

Lemma calculate_influence_perm cs cs' S :
  cs ≡ₚ cs' →
  (calculate_influence exact_ops cs S).1 = (calculate_influence exact_ops cs' S).1.
Proof.
  intros Hperm. destruct (decide (cs = [])) as [->|Hcs].
  - by apply Permutation_nil_l in Hperm as ->.
  - assert (cs' ≠ []) as Hcs'.
    { intros ->. by apply Permutation_nil_r in Hperm. }
    rewrite !calculate_influence_nonempty by done. cbn [fst]. unfold influence_value.
    by rewrite (total_reach_perm cs cs' S Hperm), (Permutation_length Hperm).
Qed.

(** ** More about the greedy loop *)

Section greedy_any_arithmetic.
Context (F : double_ops).

Lemma candidate_best_node cs S prev best u :
  max_delta_node (candidate_best F cs S prev best u) = max_delta_node best ∨
  max_delta_node (candidate_best F cs S prev best u) = u.
Proof.
  unfold candidate_best. case_decide; [by left|].
  destruct (d_gtb F _ _); [by right | by left].
Qed.

Lemma candidate_scan_node cs S prev l : ∀ best,
  max_delta_node (fold_left (candidate_best F cs S prev) l best) = max_delta_node best ∨
  max_delta_node (fold_left (candidate_best F cs S prev) l best) ∈ l.
Proof.
  induction l as [|u l IH]; intros best; [by left|]. cbn [fold_left].
  destruct (IH (candidate_best F cs S prev best u)) as [Heq|Hin].
  - rewrite Heq. destruct (candidate_best_node cs S prev best u) as [->| ->];
      [by left | right; left].
  - right. by right.
Qed.

Lemma greedy_rounds_shape V cs k :
  ∃ S prev, greedy_rounds F V cs k = SelectorState F cs S prev ∧
            (size S ≤ k)%nat ∧ S ⊆ {[-1]} ∪ V.
Proof.
  induction k as [|k (S & prev & Hst & Hsize & Hsub)].
  - exists ∅, (d_zero F). split_and!; [done | by rewrite size_empty | set_solver].
  - rewrite greedy_rounds_S, Hst, greedy_round_unfold. cbn zeta.
    set (best := fold_left _ _ _). eexists _, _. split_and!; [done| |].
    + pose proof (size_union_alt {[max_delta_node best]} S) as Hu.
      assert (size (S ∖ {[max_delta_node best]}) ≤ size S)%nat as Hd
        by (apply subseteq_size; set_solver).
      rewrite size_singleton in Hu. lia.
    + destruct (candidate_scan_node cs S prev (sorted_elements V) (round_best0 F))
        as [Heq|Hin]; fold best in Heq || fold best in Hin.
      * rewrite Heq. cbn. set_solver.
      * apply elem_of_sorted_elements in Hin. set_solver.
Qed.

Lemma greedy_same_influence V cs cs' k :
  (∀ S, (calculate_influence F cs S).1 = (calculate_influence F cs' S).1) →
  sel_S (greedy_rounds F V cs k) = sel_S (greedy_rounds F V cs' k) ∧
  previous_influence (greedy_rounds F V cs k) =
    previous_influence (greedy_rounds F V cs' k).
Proof.
  intros Hsame. induction k as [|k [HS Hprev]]; [done|].
  destruct (greedy_rounds_shape V cs k) as (S & prev & Hst & _).
  destruct (greedy_rounds_shape V cs' k) as (S' & prev' & Hst' & _).
  rewrite !greedy_rounds_S, Hst, Hst', !greedy_round_unfold. cbn zeta.
  rewrite Hst, Hst' in HS, Hprev. cbn in HS, Hprev. subst S' prev'.
  assert (∀ l best, fold_left (candidate_best F cs S prev) l best =
                    fold_left (candidate_best F cs' S prev) l best) as Hfold.
  { induction l as [|u l IH]; intros best; [done|]. cbn [fold_left].
    rewrite IH. f_equal. unfold candidate_best. by rewrite Hsame. }
  by rewrite Hfold.
Qed.

(** With an empty cascade collection no candidate passes [delta > max_delta]
    as soon as the comparison with the value of [0.0 / 0] fails. *)
Lemma greedy_no_cascades V k :
  (∀ x, d_gtb F (d_sub F (d_div F (d_zero F) (d_of_size F 0)) x) (d_minus_one F) = false) →
  greedy_rounds F V [] (S k) = SelectorState F [] {[-1]} (d_minus_one F).
Proof.
  intros Hnan.
  assert (∀ S prev l,
    fold_left (candidate_best F [] S prev) l (round_best0 F) = round_best0 F) as Hfold.
  { intros S prev l. induction l as [|u l IH]; [done|]. cbn [fold_left].
    assert (candidate_best F [] S prev (round_best0 F) u = round_best0 F) as ->; [|done].
    unfold candidate_best. case_decide; [done|].
    rewrite calculate_influence_unfold. cbn [fold_left length round_best0 max_delta].
    by rewrite Hnan. }
  induction k as [|k IH].
  - rewrite greedy_rounds_S. change (greedy_rounds F V [] 0) with (SelectorState F [] ∅ (d_zero F)).
    rewrite greedy_round_unfold. cbn zeta. rewrite Hfold. cbn. f_equal; set_solver.
  - rewrite greedy_rounds_S, IH, greedy_round_unfold. cbn zeta. rewrite Hfold. cbn.
    f_equal; set_solver.
Qed.

End greedy_any_arithmetic.

(** X6.  When the universe [V] holds every node of every cascade, as the
    loader arranges, the influence of a candidate set [T ⊆ V] over a
    non-empty collection lies between [|T|] and [|V|]. *)
Theorem calculate_influence_bounds (V T : gset Z) (cs : list (gmap Z (list Z))) :
  cs ≠ [] → Forall (λ A, nodes A ⊆ V) cs → T ⊆ V →
  leb (of_size (size T)) (calculate_influence exact_ops cs T).1 = true ∧
  leb (calculate_influence exact_ops cs T).1 (of_size (size V)) = true.
Proof.
  intros Hcs Hnodes HT. rewrite calculate_influence_nonempty by done. cbn [fst].
  unfold of_size, of_Z. rewrite !leb_fin. unfold influence_value.
  apply Qc_div_bounds.
  - destruct cs; [done | cbn [length]; lia].
  - by apply total_reach_bounds.
Qed.

Lemma calculate_influence_bounds_witness :
  [Scenario.cascade_A] ≠ [] ∧
  Forall (λ A, nodes A ⊆ Scenario.universe_A) [Scenario.cascade_A] ∧
  ({[2; 3]} : gset Z) ⊆ Scenario.universe_A ∧
  leb (of_size (size ({[2; 3]} : gset Z)))
      (calculate_influence exact_ops [Scenario.cascade_A] {[2; 3]}).1 = true ∧
  leb (calculate_influence exact_ops [Scenario.cascade_A] {[2; 3]}).1
      (of_size (size Scenario.universe_A)) = true.
Proof.
  assert (H1 : [Scenario.cascade_A] ≠ []) by discriminate.
  assert (H2 : Forall (λ A, nodes A ⊆ Scenario.universe_A) [Scenario.cascade_A]).
  { apply Forall_singleton. apply (bool_decide_unpack _). vm_compute. exact I. }
  assert (H3 : ({[2; 3]} : gset Z) ⊆ Scenario.universe_A).
  { apply (bool_decide_unpack _). vm_compute. exact I. }
  split_and!; [done..| |];
    by apply (calculate_influence_bounds Scenario.universe_A {[2; 3]} [Scenario.cascade_A]).
Defined.

(** X7.  With doubles taken as exact values, the order of the cascades in
    the collection, which is the order the directory iterator happens to
    yield the files in, changes neither the influence of a set nor what the
    greedy loop selects and reports. *)
Theorem cascade_order_irrelevant (cs cs' : list (gmap Z (list Z))) :
  cs ≡ₚ cs' →
  (∀ S, (calculate_influence exact_ops cs S).1 = (calculate_influence exact_ops cs' S).1) ∧
  (∀ V K, greedy exact_ops V cs K = greedy exact_ops V cs' K).
Proof.
  intros Hperm. split; [intros S; by apply calculate_influence_perm|].
  intros V K. unfold greedy.
  destruct (greedy_same_influence exact_ops V cs cs' (Z.to_nat K)) as [-> ->]; [|done].
  intros S. by apply calculate_influence_perm.
Qed.

Lemma cascade_order_irrelevant_witness :
  [Scenario.cascade_A; Scenario.cycle] ≡ₚ [Scenario.cycle; Scenario.cascade_A] ∧
  greedy exact_ops Scenario.universe_A [Scenario.cascade_A; Scenario.cycle] 2 =
    greedy exact_ops Scenario.universe_A [Scenario.cycle; Scenario.cascade_A] 2.
Proof.
  assert (H : [Scenario.cascade_A; Scenario.cycle] ≡ₚ [Scenario.cycle; Scenario.cascade_A])
    by apply perm_swap.
  split; [done|]. by apply cascade_order_irrelevant.
Defined.

(** X9.  For every arithmetic and after any number [k] of rounds, the greedy
    loop has left the cascade collection as it was, the seed set has at most
    [k] elements, each of them a node of [V] or the initial value [-1] of
    [max_delta_node], and it contains the seed set of every earlier round. *)
Theorem greedy_loop_invariants
    (F : double_ops) (V : gset Z) (cs : list (gmap Z (list Z))) (k : nat) :
  sel_cascades (greedy_rounds F V cs k) = cs ∧
  (size (sel_S (greedy_rounds F V cs k)) ≤ k)%nat ∧
  sel_S (greedy_rounds F V cs k) ⊆ {[-1]} ∪ V ∧
  (∀ j, (j ≤ k)%nat → sel_S (greedy_rounds F V cs j) ⊆ sel_S (greedy_rounds F V cs k)).
Proof.
  destruct (greedy_rounds_shape F V cs k) as (S & prev & Hst & Hsize & Hsub).
  split_and!; [by rewrite Hst | by rewrite Hst | by rewrite Hst |].
  intros j Hj. by apply greedy_rounds_grow.
Qed.

Lemma greedy_loop_invariants_witness :
  (1 ≤ 3)%nat ∧
  sel_S (greedy_rounds binary64_ops Scenario.universe_A [Scenario.cascade_A] 1) ⊆
    sel_S (greedy_rounds binary64_ops Scenario.universe_A [Scenario.cascade_A] 3).
Proof.
  assert (H : (1 ≤ 3)%nat) by lia.
  split; [done|].
  by apply (greedy_loop_invariants binary64_ops Scenario.universe_A [Scenario.cascade_A] 3).
Defined.

(** X10.  With doubles taken as exact values, a non-empty cascade collection
    and [0 <= K <= |V|], the greedy loop returns exactly [K] nodes, all of
    them in [V], and the influence it reports is the value of
    [calculate_influence] for the seed set it returns. *)
Theorem greedy_within_universe (V : gset Z) (cs : list (gmap Z (list Z))) (K : Z) :
  cs ≠ [] → 0 ≤ K ≤ Z.of_nat (size V) →
  (greedy exact_ops V cs K).1 ⊆ V ∧
  Z.of_nat (size (greedy exact_ops V cs K).1) = K ∧
  (greedy exact_ops V cs K).2 =
    (calculate_influence exact_ops cs (greedy exact_ops V cs K).1).1.
Proof.
  intros Hcs HK. unfold greedy. cbn [fst snd].
  destruct (greedy_rounds_inv V cs (Z.to_nat K) Hcs) as (S & -> & HSV & Hsize); [lia|].
  cbn [sel_S previous_influence]. split_and!; [done | lia |].
  rewrite calculate_influence_nonempty by done. cbn [fst].
  destruct (Z.to_nat K) eqn:HK0; [|done].
  apply size_empty_inv, leibniz_equiv in Hsize. subst S.
  unfold zero, of_Z, influence_value. f_equal.
  assert (total_reach cs ∅ = 0) as ->.
  { clear. induction cs as [|A cs IH]; [done|].
    by rewrite total_reach_cons, IH, reachable_from_count, reach_set_empty, size_empty. }
  unfold Qcdiv. by rewrite Z2Qc_inj_0, Qcmult_0_l.
Qed.

Lemma greedy_within_universe_witness :
  [Scenario.cascade_A] ≠ [] ∧ 0 ≤ 3 ≤ Z.of_nat (size Scenario.universe_A) ∧
  Z.of_nat (size (greedy exact_ops Scenario.universe_A [Scenario.cascade_A] 3).1) = 3.
Proof.
  assert (H1 : [Scenario.cascade_A] ≠ []) by discriminate.
  assert (H2 : 0 ≤ 3 ≤ Z.of_nat (size Scenario.universe_A)) by (vm_compute; split; discriminate).
  split_and!; [done..|].
  by apply (greedy_within_universe Scenario.universe_A [Scenario.cascade_A] 3).
Defined.

(** X11.  With an empty cascade collection and at least one round, whatever
    the universe, every candidate has the influence NaN and fails
    [delta > max_delta]: the loop returns the seed set {-1} and the influence
    -1.0, in exact arithmetic and in binary64. *)
Theorem greedy_without_cascades (V : gset Z) (K : Z) :
  1 ≤ K →
  greedy exact_ops V [] K = ({[-1]}, minus_one) ∧
  greedy binary64_ops V [] K = ({[-1]}, b64_minus_one).
Proof.
  intros HK. unfold greedy.
  destruct (Z.to_nat K) as [|k] eqn:Hk; [lia|].
  split.
  - rewrite greedy_no_cascades; [done|]. intros x. by destruct x.
  - rewrite greedy_no_cascades; [done|]. intros x. by destruct x.
Qed.

Lemma greedy_without_cascades_witness :
  1 ≤ 2 ∧ greedy binary64_ops Scenario.universe_A [] 2 = ({[-1]}, b64_minus_one).
Proof.
  assert (H : 1 ≤ 2) by lia.
  split; [done|]. by apply (greedy_without_cascades Scenario.universe_A 2).
Defined.

(** ** Facts about the printer *)

Lemma string_app_cons (x : ascii) (a b : string) :
  String x a +:+ b = String x (a +:+ b).
Proof. done. Qed.

Lemma string_app_assoc (a b c : string) : (a +:+ b) +:+ c = a +:+ b +:+ c.
Proof. induction a as [|x a IH]; [done|]. rewrite !string_app_cons. by f_equal. Qed.

Lemma string_app_nil_r (a : string) : a +:+ "" = a.
Proof. induction a as [|x a IH]; [done|]. rewrite string_app_cons. by f_equal. Qed.

Lemma print_set_loop (n : Z) (l : list Z) : ∀ out count,
  count + Z.of_nat (length l) = n →
  (fold_left (print_set_step n) l (out, count)).1 =
    out +:+ String.concat ", " (to_string <$> l).
Proof.
  induction l as [|s l IH]; intros out count Hn.
  - cbn. by rewrite string_app_nil_r.
  - cbn [fold_left print_set_step]. destruct l as [|s' l].
    + cbn in Hn. rewrite decide_False by lia. done.
    + rewrite decide_True by (cbn in Hn; lia).
      rewrite IH by (cbn [length] in *; lia).
      change (to_string <$> s :: s' :: l) with
        (to_string s :: (to_string <$> s' :: l)).
      change (String.concat ", " (to_string s :: (to_string <$> s' :: l))) with
        (to_string s +:+ ", " +:+ String.concat ", " (to_string <$> s' :: l)).
      by rewrite !string_app_assoc.
Qed.

Lemma has_char_app c (a b : string) :
  has_char c (a +:+ b) = has_char c a || has_char c b.
Proof.
  induction a as [|x a IH]; [done|]. rewrite string_app_cons. cbn [has_char].
  by rewrite IH, orb_assoc.
Qed.

Lemma pretty_N_char_no_comma (n : N) : Ascii.eqb "," (pretty_N_char n) = false.
Proof. unfold pretty_N_char. by repeat case_match. Qed.

Lemma pretty_N_go_shape (P : string → Prop) :
  (∀ n s, P s → P (String (pretty_N_char n) s)) →
  ∀ x s, P s → P (pretty_N_go x s).
Proof.
  intros Hstep x. induction (N.lt_wf_0 x) as [x _ IH]; intros s Hs.
  assert (x = 0 ∨ 0 < x)%N as [->|Hx] by lia; [by rewrite pretty_N_go_0|].
  rewrite pretty_N_go_step by done. apply IH; [|by apply Hstep].
  by apply N.div_lt.
Qed.

Lemma pretty_N_shape (x : N) :
  pretty x ≠ "" ∧ has_char "," (pretty x) = false.
Proof.
  unfold pretty, pretty_N. destruct (decide (x = 0%N)) as [|Hx]; [done|].
  rewrite pretty_N_go_step by lia.
  apply (pretty_N_go_shape (λ s, s ≠ "" ∧ has_char "," s = false)).
  - intros n s [_ Hs]. split; [done|]. cbn [has_char]. by rewrite pretty_N_char_no_comma.
  - split; [done|]. cbn [has_char]. by rewrite pretty_N_char_no_comma.
Qed.

Lemma to_string_shape (z : Z) :
  to_string z ≠ "" ∧ has_char "," (to_string z) = false.
Proof.
  destruct (pretty_N_shape (N.pos match z with Z0 => 1 | Zpos p | Zneg p => p end))
    as [Hne Hcomma].
  unfold to_string. destruct z as [|p|p]; [done|done|].
  change (pretty (Z.neg p)) with ("-" +:+ pretty (N.pos p)).
  split; [done|]. by rewrite has_char_app, Hcomma.
Qed.

(** Two texts with the same concatenation are equal when neither holds a
    comma and what follows each is empty or starts with one. *)
Lemma comma_split (x y r1 r2 : string) :
  has_char "," x = false → has_char "," y = false →
  (r1 = "" ∨ ∃ r, r1 = String "," r) → (r2 = "" ∨ ∃ r, r2 = String "," r) →
  x +:+ r1 = y +:+ r2 → x = y ∧ r1 = r2.
Proof.
  revert y. induction x as [|c x IH]; intros [|d y] Hx Hy Hr1 Hr2 Heq; cbn in *.
  - done.
  - destruct Hr1 as [->|[r ->]]; [done|]. injection Heq as <- _. done.
  - destruct Hr2 as [->|[r ->]]; [done|]. injection Heq as -> _. done.
  - injection Heq as -> Heq. apply orb_false_iff in Hx as [_ Hx].
    apply orb_false_iff in Hy as [_ Hy].
    destruct (IH y Hx Hy Hr1 Hr2 Heq) as [-> ->]. done.
Qed.

Lemma concat_cons (x : string) (l : list string) :
  String.concat ", " (x :: l) =
    x +:+ match l with [] => "" | _ => ", " +:+ String.concat ", " l end.
Proof. destruct l; [by rewrite string_app_nil_r | done]. Qed.

Lemma concat_comma_inj (l1 l2 : list string) :
  Forall (λ s, s ≠ "" ∧ has_char "," s = false) l1 →
  Forall (λ s, s ≠ "" ∧ has_char "," s = false) l2 →
  String.concat ", " l1 = String.concat ", " l2 → l1 = l2.
Proof.
  revert l2. induction l1 as [|x l1 IH]; intros [|y l2] H1 H2 Heq.
  - done.
  - apply Forall_cons in H2 as [[Hy _] _]. rewrite concat_cons in Heq.
    destruct y; [done | discriminate].
  - apply Forall_cons in H1 as [[Hx _] _]. rewrite concat_cons in Heq.
    destruct x; [done | discriminate].
  - apply Forall_cons in H1 as [[_ Hx] H1]. apply Forall_cons in H2 as [[_ Hy] H2].
    rewrite !concat_cons in Heq.
    apply comma_split in Heq as [-> Hrest]; [|done|done|..].
    + f_equal. destruct l1 as [|x' l1], l2 as [|y' l2]; [done|done|done|].
      apply IH; [done..|]. by injection Hrest.
    + destruct l1; [by left | right; by eexists].
    + destruct l2; [by left | right; by eexists].
Qed.

Lemma string_app_length (s t : string) :
  String.length (s +:+ t) = (String.length s + String.length t)%nat.
Proof.
  induction s as [|x s IH]; [done|]. rewrite string_app_cons. cbn [String.length].
  by rewrite IH.
Qed.

Lemma string_app_inj_r (a b c : string) : a +:+ c = b +:+ c → a = b.
Proof.
  revert b. induction a as [|x a IH]; intros [|y b] Heq.
  - done.
  - apply (f_equal String.length) in Heq. rewrite !string_app_length in Heq.
    cbn [String.length] in Heq. lia.
  - apply (f_equal String.length) in Heq. rewrite !string_app_length in Heq.
    cbn [String.length] in Heq. lia.
  - rewrite !string_app_cons in Heq. injection Heq as -> Heq. f_equal. by apply IH.
Qed.

Lemma print_set_closed_form (S : gset Z) (out : string) :
  print_set S out =
    out +:+ "{" +:+ String.concat ", " (to_string <$> sorted_elements S) +:+ "}".
Proof.
  unfold print_set.
  pose proof (print_set_loop (Z.of_nat (size S)) (sorted_elements S) (out +:+ "{") 0) as Hloop.
  destruct (fold_left _ _ _) as [out' count]. cbn [fst] in Hloop.
  rewrite Hloop by (rewrite length_sorted_elements; lia).
  by rewrite !string_app_assoc.
Qed.

(** * Further properties: the printer *)

(** X12.  [print_set] writes an opening brace, the decimal numerals of the
    elements in ascending order with ", " between two of them and nothing
    after the last one, and a closing brace. *)
Theorem print_set_text (S : gset Z) (out : string) :
  print_set S out =
    out +:+ "{" +:+ String.concat ", " (to_string <$> sorted_elements S) +:+ "}".
Proof. apply print_set_closed_form. Qed.

(** X13.  The text that [print_set] writes determines the set: two sets
    printed alike are equal. *)
Theorem print_set_inj (S T : gset Z) (out : string) :
  print_set S out = print_set T out → S = T.
Proof.
  rewrite !print_set_closed_form. intros Heq.
  apply String.app_inj, (String.app_inj "{") in Heq.
  apply string_app_inj_r, concat_comma_inj in Heq.
  - apply (inj (fmap to_string)) in Heq.
    by rewrite <- (list_to_set_sorted_elements S), <- (list_to_set_sorted_elements T), Heq.
  - apply Forall_fmap, Forall_forall. intros z _. apply to_string_shape.
  - apply Forall_fmap, Forall_forall. intros z _. apply to_string_shape.
Qed.

Lemma print_set_inj_witness :
  print_set ({[2; 1]} : gset Z) "S = " = print_set ({[1; 2]} : gset Z) "S = " ∧
  ({[2; 1]} : gset Z) = {[1; 2]}.
Proof.
  assert (H : print_set ({[2; 1]} : gset Z) "S = " = print_set ({[1; 2]} : gset Z) "S = ")
    by (vm_compute; reflexivity).
  split; [done|]. by apply (print_set_inj _ _ "S = ").
Defined.

(** ** Facts about the loader *)

Section loader_facts.
Context (env : environment).
Implicit Types (V : gset Z) (A : gmap Z (list Z)) (line : string).

Lemma create_cascade_line_unfold V A line :
  create_cascade_line env (V, A) line =
    match line with
    | EmptyString => Failed OutOfRange
    | String _ _ =>
        if is_comment line then Done (V, A)
        else
          Done ({[(stream_values env (V, A) line).1]} ∪
                  ({[(stream_values env (V, A) line).2]} ∪ V),
                <[(stream_values env (V, A) line).1 :=
                    default [] (A !! (stream_values env (V, A) line).1) ++
                      [(stream_values env (V, A) line).2]]> A)
    end.
Proof.
  destruct line as [|c s]; [done|]. unfold create_cascade_line, is_comment.
  destruct (Ascii.eqb c POUND || Ascii.eqb c PERCENT); [done|].
  cbn [negb andb String.eqb].
  destruct (stream_values env (V, A) (String c s)) as [from to]. cbn [fst snd].
  unfold map_index. destruct (A !! from) as [vs|]; [done|].
  cbn [default]. by rewrite insert_insert_eq.
Qed.

Lemma stream_values_extract V A line p :
  stream_extract env line = Some p → stream_values env (V, A) line = p.
Proof. intros Hp. unfold stream_values. by rewrite Hp. Qed.

Lemma readable_not_blank lines : Forall (readable env) lines → "" ∉ lines.
Proof.
  intros Hall Hin. rewrite Forall_forall in Hall. by destruct (Hall _ Hin) as [? _].
Qed.

Lemma create_cascade_loop_blank lines : ∀ st,
  "" ∈ lines → create_cascade_loop env lines st = Failed OutOfRange.
Proof.
  induction lines as [|line lines IH]; intros [V A] Hin; [by apply elem_of_nil in Hin|].
  cbn [create_cascade_loop]. rewrite create_cascade_line_unfold.
  destruct line as [|c s]; [done|].
  apply elem_of_cons in Hin as [?|Hin]; [done|].
  destruct (is_comment (String c s)); by apply IH.
Qed.

Lemma create_cascade_loop_runs lines : ∀ st,
  "" ∉ lines → ∃ st', create_cascade_loop env lines st = Done st'.
Proof.
  induction lines as [|line lines IH]; intros [V A] Hblank; [by eexists|].
  apply not_elem_of_cons in Hblank as [Hne Hblank].
  cbn [create_cascade_loop]. rewrite create_cascade_line_unfold.
  destruct line as [|c s]; [done|].
  destruct (is_comment (String c s)); by apply IH.
Qed.

Lemma create_cascade_loop_comments lines : ∀ st,
  create_cascade_loop env (List.filter (λ line, negb (is_comment line)) lines) st =
    create_cascade_loop env lines st.
Proof.
  induction lines as [|line lines IH]; intros [V A]; [done|].
  cbn [List.filter create_cascade_loop].
  destruct (is_comment line) eqn:Hc; cbn [negb].
  - rewrite IH, create_cascade_line_unfold, Hc. by destruct line.
  - cbn [create_cascade_loop]. destruct (create_cascade_line env (V, A) line); [apply IH | done].
Qed.

Lemma edges_of_cons_comment line lines :
  is_comment line = true → edges_of env (line :: lines) = edges_of env lines.
Proof. intros Hc. unfold edges_of. cbn [List.filter]. by rewrite Hc. Qed.

Lemma edges_of_cons_edge line lines e :
  is_comment line = false → stream_extract env line = Some e →
  edges_of env (line :: lines) = e :: edges_of env lines.
Proof.
  intros Hc He. unfold edges_of. cbn [List.filter]. rewrite Hc. cbn [negb omap list_omap].
  by rewrite He.
Qed.

Lemma targets_of_cons u from to edges :
  targets_of u ((from, to) :: edges) =
    if decide (from = u) then to :: targets_of u edges else targets_of u edges.
Proof.
  unfold targets_of. cbn [List.filter fst]. destruct (decide (from = u)) as [->|Hne].
  - by rewrite Z.eqb_refl.
  - by apply Z.eqb_neq in Hne as ->.
Qed.

Lemma endpoints_cons from to edges :
  endpoints ((from, to) :: edges) = {[from]} ∪ ({[to]} ∪ endpoints edges).
Proof. unfold endpoints. rewrite !fmap_cons. cbn [fst snd list_to_set]. set_solver. Qed.

(** What the loop of [create_cascade] does on a file whose lines are all
    readable. *)
Lemma create_cascade_loop_edges lines : ∀ V A,
  Forall (readable env) lines →
  ∃ A', create_cascade_loop env lines (V, A) =
          Done (V ∪ endpoints (edges_of env lines), A') ∧
        dom A' = dom A ∪ list_to_set (edges_of env lines).*1 ∧
        ∀ u, default [] (A' !! u) =
               default [] (A !! u) ++ targets_of u (edges_of env lines).
Proof.
  induction lines as [|line lines IH]; intros V A Hall.
  - exists A. split_and!.
    + cbn. do 2 f_equal. unfold endpoints. set_solver.
    + set_solver.
    + intros u. by rewrite app_nil_r.
  - apply Forall_cons in Hall as [[Hne Hext] Hall].
    cbn [create_cascade_loop]. rewrite create_cascade_line_unfold.
    destruct line as [|c s]; [done|].
    destruct (is_comment (String c s)) eqn:Hc.
    { rewrite edges_of_cons_comment by done. by apply IH. }
    destruct (Hext eq_refl) as [[from to] Hx].
    rewrite (stream_values_extract V A _ _ Hx). cbn [fst snd].
    rewrite (edges_of_cons_edge _ _ (from, to)) by done.
    destruct (IH ({[from]} ∪ ({[to]} ∪ V))
                 (<[from := default [] (A !! from) ++ [to]]> A) Hall)
      as (A' & Hloop & Hdom & Hlists).
    exists A'. split_and!.
    + rewrite Hloop. do 2 f_equal. rewrite endpoints_cons. set_solver.
    + rewrite Hdom, dom_insert_L, fmap_cons. cbn [fst list_to_set]. set_solver.
    + intros u. rewrite Hlists, targets_of_cons. destruct (decide (from = u)) as [->|Hne'].
      * rewrite lookup_insert_eq. simpl. by rewrite <- app_assoc.
      * by rewrite lookup_insert_ne.
Qed.

(** A cascade holds the edges of a list: its keys are their sources and its
    lists their targets, in order. *)
Lemma cascade_of_edges A edges :
  dom A = list_to_set edges.*1 →
  (∀ u, default [] (A !! u) = targets_of u edges) →
  (∀ u v, edge A u v ↔ (u, v) ∈ edges) ∧ nodes A = endpoints edges.
Proof.
  intros Hdom Hlists.
  assert (Hin : ∀ u v, v ∈ targets_of u edges ↔ (u, v) ∈ edges).
  { intros u v. unfold targets_of. rewrite list_elem_of_fmap. split.
    - intros ([u' v'] & -> & Hf%list_elem_of_In%filter_In).
      destruct Hf as [Hf Heq%Z.eqb_eq]. cbn in *. subst. by apply list_elem_of_In.
    - intros Hf. exists (u, v). split; [done|].
      apply list_elem_of_In, filter_In. split; [by apply list_elem_of_In|].
      apply Z.eqb_refl. }
  assert (Hedge : ∀ u v, edge A u v ↔ (u, v) ∈ edges).
  { intros u v. rewrite <- Hin, <- Hlists. unfold edge. split.
    - by intros (vs & -> & Hv).
    - destruct (A !! u) as [vs|]; [by exists vs|]. by intros ?%elem_of_nil. }
  split; [done|]. unfold nodes, endpoints. rewrite Hdom. f_equal.
  apply set_eq. intros v. rewrite elem_of_list_to_set, list_elem_of_fmap. split.
  - intros (u & vs & Hu & Hv)%elem_of_targets_inv.
    exists (u, v). split; [done|]. apply Hedge. by exists vs.
  - intros ([u v'] & -> & Hf). apply Hedge in Hf as (vs & Hu & Hv).
    by eapply elem_of_targets.
Qed.

(** [A[from].push_back(to)] adds the two ends of the edge to the nodes of the
    cascade. *)
Lemma nodes_push_back A from to :
  nodes (<[from := default [] (A !! from) ++ [to]]> A) = {[from]} ∪ ({[to]} ∪ nodes A).
Proof.
  unfold nodes. rewrite dom_insert_L.
  assert (targets (<[from := default [] (A !! from) ++ [to]]> A) ∖ {[to]} ⊆ targets A ∧
          targets A ⊆ targets (<[from := default [] (A !! from) ++ [to]]> A) ∧
          to ∈ targets (<[from := default [] (A !! from) ++ [to]]> A)) as (H1 & H2 & H3).
  { split_and!.
    - intros v [(u & vs & Hu & Hv)%elem_of_targets_inv Hne]%elem_of_difference.
      destruct (decide (from = u)) as [->|Hfu].
      + rewrite lookup_insert_eq in Hu. injection Hu as <-.
        apply elem_of_app in Hv as [Hv|Hv%list_elem_of_singleton]; [|set_solver].
        destruct (A !! u) as [ws|] eqn:HAu; [by eapply elem_of_targets|].
        by apply elem_of_nil in Hv.
      + rewrite lookup_insert_ne in Hu by done. by eapply elem_of_targets.
    - intros v (u & vs & Hu & Hv)%elem_of_targets_inv.
      destruct (decide (from = u)) as [->|Hfu].
      + eapply (elem_of_targets _ u); [apply lookup_insert_eq|].
        rewrite Hu. cbn [default]. apply elem_of_app. by left.
      + eapply (elem_of_targets _ u); [by rewrite lookup_insert_ne|done].
    - eapply (elem_of_targets _ from); [apply lookup_insert_eq|].
      apply elem_of_app. right. by apply list_elem_of_singleton. }
  assert (targets (<[from := default [] (A !! from) ++ [to]]> A) = {[to]} ∪ targets A) as ->.
  { apply set_eq. intros v. rewrite elem_of_union, elem_of_singleton. split.
    - intros Hv. destruct (decide (v = to)) as [|Hne]; [by left|]. right.
      apply H1, elem_of_difference. split; [done|]. by rewrite elem_of_singleton.
    - intros [->|Hv]; [done | by apply H2]. }
  clear. set_solver.
Qed.

(** The loop of [create_cascade] adds to [V] what it adds to the nodes of
    [A], whatever the lines yield. *)
Lemma create_cascade_loop_nodes lines : ∀ V A V' A',
  create_cascade_loop env lines (V, A) = Done (V', A') →
  ∃ E : gset Z, V' = V ∪ E ∧ nodes A' = nodes A ∪ E.
Proof.
  induction lines as [|line lines IH]; intros V A V' A' Hloop.
  - injection Hloop as <- <-. exists ∅. by rewrite !union_empty_r_L.
  - cbn [create_cascade_loop] in Hloop. rewrite create_cascade_line_unfold in Hloop.
    destruct line as [|c s]; [done|].
    destruct (is_comment (String c s)); [by apply IH|].
    destruct (stream_values env (V, A) (String c s)) as [from to]. cbn [fst snd] in Hloop.
    apply IH in Hloop as (E & -> & ->). rewrite nodes_push_back.
    exists ({[from]} ∪ ({[to]} ∪ E)). clear. split; set_solver.
Qed.

Lemma create_cascade_outcome_cases V A name :
  match create_cascade env V A name with
  | Done _ => "" ∉ file_lines env name
  | Failed e => e = OutOfRange ∧ "" ∈ file_lines env name
  end.
Proof.
  unfold create_cascade. destruct (decide ("" ∈ file_lines env name)) as [Hin|Hout].
  - by rewrite create_cascade_loop_blank.
  - by destruct (create_cascade_loop_runs _ (V, A) Hout) as [st' ->].
Qed.

Lemma load_step_done V cs name V' cs' :
  load_step env (V, cs) name = Done (V', cs') →
  ("" ∉ file_lines env name) ∧
  ∃ A, cs' = cs ++ [A] ∧ V' = V ∪ nodes A ∧
    (Forall (readable env) (file_lines env name) → loaded_from env name A).
Proof.
  unfold load_step. intros Hstep.
  pose proof (create_cascade_outcome_cases V ∅ name) as Hcases.
  destruct (create_cascade env V ∅ name) as [[V1 A1]|e] eqn:Hcc; [|done].
  injection Hstep as <- <-. split; [done|]. exists A1. split_and!; [done| |].
  - apply create_cascade_loop_nodes in Hcc as (E & -> & ->).
    assert (nodes (∅ : gmap Z (list Z)) = ∅) as ->.
    { unfold nodes, targets. by rewrite dom_empty_L, map_to_list_empty, union_empty_l_L. }
    by rewrite union_empty_l_L.
  - intros Hall.
    destruct (create_cascade_loop_edges _ V ∅ Hall) as (A & Hloop & Hdom & Hlists).
    unfold create_cascade in Hcc. rewrite Hcc in Hloop. injection Hloop as _ <-.
    split.
    + by rewrite Hdom, dom_empty_L, union_empty_l_L.
    + intros u. by rewrite Hlists, lookup_empty.
Qed.

Lemma load_step_runs V cs name :
  "" ∉ file_lines env name → ∃ st, load_step env (V, cs) name = Done st.
Proof.
  intros Hblank. unfold load_step, create_cascade.
  destruct (create_cascade_loop_runs _ (V, ∅) Hblank) as [[V' A] ->]. by eexists.
Qed.

Lemma load_loop_done names : ∀ V cs V' cs',
  load_loop env names (V, cs) = Done (V', cs') →
  Forall (λ name, "" ∉ file_lines env name) names ∧
  ∃ loaded, cs' = cs ++ loaded ∧ V' = V ∪ ⋃ (nodes <$> loaded) ∧
    Forall2 (λ name A, Forall (readable env) (file_lines env name) →
                       loaded_from env name A) names loaded.
Proof.
  induction names as [|name names IH]; intros V cs V' cs' Hloop.
  - injection Hloop as <- <-. split; [done|]. exists []. split_and!.
    + by rewrite app_nil_r.
    + cbn. set_solver.
    + constructor.
  - cbn [load_loop] in Hloop.
    destruct (load_step env (V, cs) name) as [[V1 cs1]|e] eqn:Hstep; [|done].
    apply load_step_done in Hstep as (Hall & A & -> & -> & HA).
    apply IH in Hloop as (Halls & loaded & -> & -> & Hloaded).
    split; [by constructor|]. exists (A :: loaded). split_and!.
    + by rewrite <- app_assoc.
    + rewrite fmap_cons. cbn [union_list foldr]. set_solver.
    + by constructor.
Qed.

Lemma load_loop_runs names : ∀ st,
  Forall (λ name, "" ∉ file_lines env name) names →
  ∃ st', load_loop env names st = Done st'.
Proof.
  induction names as [|name names IH]; intros [V cs] Hall; [by eexists|].
  apply Forall_cons in Hall as [Hname Hall]. cbn [load_loop].
  destruct (load_step_runs V cs name Hname) as [st1 ->]. by apply IH.
Qed.

Lemma loaded_from_readable names loaded :
  Forall2 (λ name A, Forall (readable env) (file_lines env name) →
                     loaded_from env name A) names loaded →
  Forall (λ name, Forall (readable env) (file_lines env name)) names →
  Forall2 (loaded_from env) names loaded.
Proof.
  induction 1 as [|name A names loaded HA Hrest IH]; intros Hall; [constructor|].
  apply Forall_cons in Hall as [Hname Hall]. constructor; [by apply HA | by apply IH].
Qed.

End loader_facts.
(** ** Facts about [find] *)

Lemma substring_prefix (n : nat) : ∀ (p s : string),
  substring 0 n p = s → String.length s = n → ∃ b, p = s +:+ b.
Proof.
  induction n as [|n IH]; intros p s Hsub Hlen.
  - destruct s; [|done]. by exists p.
  - destruct p as [|c p]; cbn in Hsub; [by subst|].
    destruct s as [|d s]; [done|]. injection Hsub as -> Hsub.
    destruct (IH p s Hsub) as [b ->]; [by injection Hlen|]. by exists b.
Qed.

Lemma substring_infix (m : nat) : ∀ (n : nat) (p s : string),
  substring m n p = s → String.length s = n → ∃ a b, p = a +:+ s +:+ b.
Proof.
  induction m as [|m IH]; intros n p s Hsub Hlen.
  - destruct (substring_prefix n p s Hsub Hlen) as [b ->]. by exists "", b.
  - destruct p as [|c p]; cbn in Hsub.
    + subst s. by exists "", "".
    + destruct (IH n p s Hsub Hlen) as (a & b & ->). by exists (String c a), b.
Qed.

Lemma substring_skip (a r : string) (n : nat) :
  substring (String.length a) n (a +:+ r) = substring 0 n r.
Proof. induction a as [|c a IH]; [done|]. rewrite string_app_cons. exact IH. Qed.

(** ** Facts about the whole run *)

Lemma sorted_elements_singleton (u : Z) : sorted_elements {[u]} = [u].
Proof.
  apply Permutation_singleton_r. rewrite sorted_elements_perm.
  by rewrite elements_singleton.
Qed.

Lemma get_cascade_vector_done env V cs V' cs' :
  get_cascade_vector env V cs = Done (V', cs') →
  ∃ entries loaded,
    directory_entries env CASCADE_DIRECTORY = Some entries ∧
    Forall (λ name, "" ∉ file_lines env name) (List.filter contains_txt entries) ∧
    cs' = cs ++ loaded ∧
    V' = V ∪ ⋃ (nodes <$> loaded) ∧
    Forall2 (λ name A, Forall (readable env) (file_lines env name) →
                       loaded_from env name A)
      (List.filter contains_txt entries) loaded.
Proof.
  unfold get_cascade_vector.
  destruct (directory_entries env CASCADE_DIRECTORY) as [entries|]; [|done].
  intros (Hall & loaded & ? & ? & ?)%load_loop_done. by exists entries, loaded.
Qed.

Lemma nodes_in_universe (loaded : list (gmap Z (list Z))) (V : gset Z) :
  Forall (λ A, nodes A ⊆ V ∪ ⋃ (nodes <$> loaded)) loaded.
Proof.
  apply Forall_forall. intros A HA v Hv. apply elem_of_union. right.
  apply elem_of_union_list. exists (nodes A). split; [|done].
  apply list_elem_of_fmap. by exists A.
Qed.

Lemma main_unfold F env :
  main F env =
    match get_cascade_vector env ∅ [] with
    | Failed e => Failed e
    | Done (V, cascades) =>
        Done (Report (length cascades)
                (print_set (greedy F V cascades PARAM_K).1 "")
                (greedy F V cascades PARAM_K).2)
    end.
Proof. unfold main. by destruct (get_cascade_vector env ∅ []) as [[V cs]|e]. Qed.

(** The one round that [main] runs, on a universe without nodes and on one
    with nodes. *)
Lemma greedy_first_round_empty (V : gset Z) (cs : list (gmap Z (list Z))) :
  V = ∅ → greedy exact_ops V cs PARAM_K = ({[-1]}, minus_one).
Proof.
  intros ->. unfold greedy, PARAM_K. change (Z.to_nat 1) with 1%nat.
  assert (greedy_rounds exact_ops ∅ cs 1 =
            greedy_round exact_ops ∅ (SelectorState exact_ops cs ∅ zero)) as -> by done.
  rewrite greedy_round_exhausted by done.
  cbn [fst snd sel_S previous_influence]. by rewrite union_empty_r_L.
Qed.

Lemma greedy_first_round (V : gset Z) (cs : list (gmap Z (list Z))) :
  cs ≠ [] → V ≠ ∅ →
  ∃ u, u ∈ V ∧
    greedy exact_ops V cs PARAM_K = ({[u]}, DFin (influence_value cs {[u]})) ∧
    ∀ w, w ∈ V →
      (influence_value cs {[w]} ≤ influence_value cs {[u]})%Qc ∧
      (w < u → (influence_value cs {[w]} < influence_value cs {[u]})%Qc).
Proof.
  intros Hcs Hne.
  assert (Hsize : (0 < size V)%nat).
  { destruct (size V) eqn:Hs; [|lia]. by apply size_empty_inv, leibniz_equiv in Hs. }
  destruct (greedy_rounds_select V cs 0 Hcs Hsize)
    as (S & u & HS & HuV & _ & Hround & Hmax & Hfirst).
  assert (S = ∅) as -> by (by rewrite <- HS).
  rewrite union_empty_r_L in Hround.
  exists u. split_and!; [done| |].
  - unfold greedy, PARAM_K. change (Z.to_nat 1) with 1%nat. by rewrite Hround.
  - intros w Hw. split.
    + specialize (Hmax w Hw). rewrite !union_empty_r_L in Hmax. apply Hmax. set_solver.
    + intros Hlt. specialize (Hfirst w Hw). rewrite !union_empty_r_L in Hfirst.
      apply Hfirst; [set_solver | done].
Qed.

(** Discharges [Forall (readable env) lines] for given lines. *)
Ltac readable_lines :=
  repeat first
    [ apply Forall_nil_2
    | apply Forall_cons_2;
      [ split; [discriminate | first [ intros Hc; discriminate Hc
                                     | intros _; vm_compute; eexists; reflexivity ]] | ] ].

(** * Further properties: the loader and the whole run *)

(** X14.  [create_cascade] returns if and only if no line of the file is
    empty.  On the first empty line [line.at(0)] throws [std::out_of_range],
    also when lines with edges come before it: the test [line == ""] stands
    after [line.at(0)] and is never reached for an empty line.  A line on
    which an extraction fails does not end the call. *)
Theorem create_cascade_outcome
    (env : environment) (V : gset Z) (A : gmap Z (list Z)) (name : string) :
  match create_cascade env V A name with
  | Done _ => "" ∉ file_lines env name
  | Failed e => e = OutOfRange ∧ "" ∈ file_lines env name
  end.
Proof.
  unfold create_cascade. destruct (decide ("" ∈ file_lines env name)) as [Hin|Hout].
  - by rewrite create_cascade_loop_blank.
  - by destruct (create_cascade_loop_runs env _ (V, A) Hout) as [st' ->].
Qed.

(** X15.  For every arithmetic, the program gets as far as its report if and
    only if the directory can be iterated and no entry whose path contains
    [.txt] has an empty line.  One blank line in one file ends the run
    without a result; a line without numbers does not. *)
Theorem main_done_iff (F : double_ops) (env : environment) :
  (∃ r, main F env = Done r) ↔
  ∃ entries, directory_entries env CASCADE_DIRECTORY = Some entries ∧
    ∀ name, name ∈ entries → contains_txt name = true → "" ∉ file_lines env name.
Proof.
  rewrite main_unfold. split.
  - intros [r Hr].
    destruct (get_cascade_vector env ∅ []) as [[V cs]|e] eqn:Hload; [|done].
    apply get_cascade_vector_done in Hload as (entries & loaded & Hdir & Hall & _).
    exists entries. split; [done|]. intros name Hname Htxt.
    rewrite Forall_forall in Hall. apply Hall.
    apply list_elem_of_In, filter_In. split; [by apply list_elem_of_In | done].
  - intros (entries & Hdir & Hall). unfold get_cascade_vector. rewrite Hdir.
    destruct (load_loop_runs env (List.filter contains_txt entries) (∅, [])) as [[V cs] ->].
    + apply Forall_forall. intros name [Hname Htxt]%list_elem_of_In%filter_In.
      apply Hall; [by apply list_elem_of_In | done].
    + by eexists.
Qed.

Lemma main_done_iff_witness :
  (∃ r, main binary64_ops Example.env = Done r) ∧
  (∃ r, main binary64_ops Example.env_garbled = Done r) ∧
  (¬ ∃ r, main binary64_ops Example.env_blank = Done r) ∧
  match main binary64_ops Example.env_garbled with
  | Done r =>
      report_cascades r = 1%nat ∧ report_set r = "{0}" ∧ report_influence r = b64_of_Z 2
  | Failed _ => False
  end.
Proof.
  split_and!; [| | |vm_compute; split_and!; reflexivity].
  - apply main_done_iff. exists [Example.edge_file; Example.other_file; Example.backup_file].
    split; [reflexivity|]. intros name Hname _.
    repeat (apply elem_of_cons in Hname as [->|Hname]); [..|by apply elem_of_nil in Hname];
      vm_compute file_lines; intros Hin;
      repeat (apply elem_of_cons in Hin as [Hin|Hin]; [discriminate Hin|]);
      by apply elem_of_nil in Hin.
  - apply main_done_iff. exists [Example.edge_file].
    split; [reflexivity|]. intros name Hname _.
    repeat (apply elem_of_cons in Hname as [->|Hname]); [..|by apply elem_of_nil in Hname];
      vm_compute file_lines; intros Hin;
      repeat (apply elem_of_cons in Hin as [Hin|Hin]; [discriminate Hin|]);
      by apply elem_of_nil in Hin.
  - intros Hdone. apply main_done_iff in Hdone as (entries & Hdir & Hall).
    injection Hdir as <-.
    apply (Hall Example.edge_file (list_elem_of_here _ _) eq_refl).
    vm_compute file_lines. right. left.
Defined.

(** X16.  Comment lines have no effect on what [create_cascade] does: two
    files with the same lines apart from those that start with [#] or [%] give
    the same result, also when the call fails. *)
Theorem create_cascade_ignores_comments
    (env : environment) (V : gset Z) (A : gmap Z (list Z)) (name name' : string) :
  List.filter (λ line, negb (is_comment line)) (file_lines env name) =
    List.filter (λ line, negb (is_comment line)) (file_lines env name') →
  create_cascade env V A name = create_cascade env V A name'.
Proof.
  intros Hsame. unfold create_cascade.
  by rewrite <- (create_cascade_loop_comments env (file_lines env name)),
    <- (create_cascade_loop_comments env (file_lines env name')), Hsame.
Qed.

Lemma create_cascade_ignores_comments_witness :
  List.filter (λ line, negb (is_comment line))
      (file_lines Example.env_copy Example.edge_file) =
    List.filter (λ line, negb (is_comment line))
      (file_lines Example.env_copy Example.plain_file) ∧
  create_cascade Example.env_copy {[7]} {[ 1 := [9] ]} Example.edge_file =
    create_cascade Example.env_copy {[7]} {[ 1 := [9] ]} Example.plain_file.
Proof.
  assert (H : List.filter (λ line, negb (is_comment line))
                (file_lines Example.env_copy Example.edge_file) =
              List.filter (λ line, negb (is_comment line))
                (file_lines Example.env_copy Example.plain_file))
    by (vm_compute; reflexivity).
  split; [done|]. by apply create_cascade_ignores_comments.
Defined.

(** X17.  On a file whose lines are all readable, [create_cascade] adds the
    two ends of every edge to [V], makes every source a key of [A], and
    appends to the list of each source the targets of its edges in the order
    of the lines; what [V] and [A] held before stays. *)
Theorem create_cascade_appends_edges
    (env : environment) (V : gset Z) (A : gmap Z (list Z)) (name : string) :
  Forall (readable env) (file_lines env name) →
  ∃ A', create_cascade env V A name =
          Done (V ∪ endpoints (edges_of env (file_lines env name)), A') ∧
        dom A' = dom A ∪ list_to_set (edges_of env (file_lines env name)).*1 ∧
        ∀ u, default [] (A' !! u) =
               default [] (A !! u) ++ targets_of u (edges_of env (file_lines env name)).
Proof. intros Hall. by apply create_cascade_loop_edges. Qed.

Lemma create_cascade_appends_edges_witness :
  Forall (readable Example.env) (file_lines Example.env Example.edge_file) ∧
  ∃ A', create_cascade Example.env {[7]} {[ 1 := [9] ]} Example.edge_file =
          Done ({[7]} ∪ endpoints (edges_of Example.env
                  (file_lines Example.env Example.edge_file)), A') ∧
        default [] (A' !! 1) =
          default [] (({[ 1 := [9] ]} : gmap Z (list Z)) !! 1) ++
            targets_of 1 (edges_of Example.env (file_lines Example.env Example.edge_file)).
Proof.
  assert (H : Forall (readable Example.env) (file_lines Example.env Example.edge_file))
    by (vm_compute file_lines; readable_lines).
  split; [done|].
  destruct (create_cascade_appends_edges Example.env {[7]} {[ 1 := [9] ]} Example.edge_file H)
    as (A' & Hcc & _ & Hlists).
  exists A'. split; [done | apply Hlists].
Defined.

(** X18.  When [get_cascade_vector] returns, it has appended one cascade for
    each directory entry whose path contains [.txt], in the order of the
    directory, and [V] has gained the nodes of these cascades and nothing
    else.  If every line of these files is readable, each cascade holds the
    edges of its file, with the targets of a source in the order of the
    lines. *)
Theorem get_cascade_vector_loads
    (env : environment) (V V' : gset Z) (cs cs' : list (gmap Z (list Z)))
    (entries : list string) :
  directory_entries env CASCADE_DIRECTORY = Some entries →
  get_cascade_vector env V cs = Done (V', cs') →
  ∃ loaded, cs' = cs ++ loaded ∧
    length loaded = length (List.filter contains_txt entries) ∧
    V' = V ∪ ⋃ (nodes <$> loaded) ∧
    ((∀ name, name ∈ entries → contains_txt name = true →
        Forall (readable env) (file_lines env name)) →
     Forall2 (loaded_from env) (List.filter contains_txt entries) loaded).
Proof.
  intros Hdir (entries' & loaded & Hdir' & _ & Hcs & HV & Hloaded)%get_cascade_vector_done.
  rewrite Hdir in Hdir'. injection Hdir' as <-. exists loaded.
  split_and!; [done | symmetry; by eapply Forall2_length | done |].
  intros Hall. apply loaded_from_readable; [done|].
  apply Forall_forall. intros name [Hname Htxt]%list_elem_of_In%filter_In.
  apply Hall; [by apply list_elem_of_In | done].
Qed.

Lemma get_cascade_vector_loads_witness :
  directory_entries Example.env CASCADE_DIRECTORY =
    Some [Example.edge_file; Example.other_file; Example.backup_file] ∧
  get_cascade_vector Example.env ∅ [] = Done ({[1; 2; 3; 4]}, [Scenario.cascade_A; ∅]) ∧
  (∀ name, name ∈ [Example.edge_file; Example.other_file; Example.backup_file] →
     contains_txt name = true → Forall (readable Example.env) (file_lines Example.env name)) ∧
  ∃ loaded, [Scenario.cascade_A; ∅] = [] ++ loaded ∧
    ({[1; 2; 3; 4]} : gset Z) = ∅ ∪ ⋃ (nodes <$> loaded) ∧
    Forall2 (loaded_from Example.env) [Example.edge_file; Example.backup_file] loaded.
Proof.
  assert (H1 : directory_entries Example.env CASCADE_DIRECTORY =
            Some [Example.edge_file; Example.other_file; Example.backup_file])
    by reflexivity.
  assert (H2 : get_cascade_vector Example.env ∅ [] =
            Done ({[1; 2; 3; 4]}, [Scenario.cascade_A; ∅]))
    by (vm_compute; reflexivity).
  assert (H3 : ∀ name,
            name ∈ [Example.edge_file; Example.other_file; Example.backup_file] →
            contains_txt name = true →
            Forall (readable Example.env) (file_lines Example.env name)).
  { intros name Hname _.
    repeat (apply elem_of_cons in Hname as [->|Hname]); [..|by apply elem_of_nil in Hname];
      vm_compute file_lines; readable_lines. }
  split_and!; [exact H1 | exact H2 | exact H3 |].
  destruct (get_cascade_vector_loads _ _ _ _ _ _ H1 H2) as (loaded & Hcs & _ & HV & Hfiles).
  exists loaded. split_and!; [exact Hcs | exact HV | exact (Hfiles H3)].
Defined.

(** X19.  The test [file_path.find(".txt") != -1] accepts exactly the paths
    that contain the four characters [.txt] somewhere, not only at the end. *)
Theorem contains_txt_anywhere (file_path : string) :
  contains_txt file_path = true ↔ ∃ a b, file_path = a +:+ ".txt" +:+ b.
Proof.
  unfold contains_txt. split.
  - destruct (index 0 ".txt" file_path) as [m|] eqn:Hindex; [intros _ | done].
    apply index_correct1 in Hindex. by apply substring_infix in Hindex.
  - intros (a & b & ->).
    destruct (index 0 ".txt" (a +:+ ".txt" +:+ b)) as [m|] eqn:Hindex; [done|].
    apply (index_correct3 0 (String.length a)) in Hindex; [|done|lia].
    destruct Hindex. rewrite substring_skip. by destruct b.
Qed.

(** X20.  With doubles taken as exact values, a run that gets to its report
    prints the number of cascades loaded and then either the set {-1} with
    the influence -1.0, when no file held an edge, or the set {u} of one node
    of the loaded cascades: the least one among those of the largest average
    reach, with that average, which lies between 1 and the number of nodes. *)
Theorem main_reports_first_best_node (env : environment) (r : report exact_ops) :
  main exact_ops env = Done r →
  ∃ V cs, get_cascade_vector env ∅ [] = Done (V, cs) ∧
    report_cascades r = length cs ∧
    ((V = ∅ ∧ report_set r = "{-1}" ∧ report_influence r = minus_one) ∨
     (∃ u, u ∈ V ∧
        report_set r = "{" +:+ to_string u +:+ "}" ∧
        report_influence r = DFin (influence_value cs {[u]}) ∧
        (1 ≤ influence_value cs {[u]})%Qc ∧
        (influence_value cs {[u]} ≤ Qc_of_Z (Z.of_nat (size V)))%Qc ∧
        ∀ w, w ∈ V →
          (influence_value cs {[w]} ≤ influence_value cs {[u]})%Qc ∧
          (w < u → (influence_value cs {[w]} < influence_value cs {[u]})%Qc))).
Proof.
  intros Hmain. rewrite main_unfold in Hmain.
  destruct (get_cascade_vector env ∅ []) as [[V cs]|e] eqn:Hload; [|done].
  exists V, cs. split; [done|].
  apply get_cascade_vector_done in Hload as (entries & loaded & _ & _ & Hcs & HV & _).
  rewrite app_nil_l in Hcs. subst cs.
  pose proof (nodes_in_universe loaded ∅) as Hnodes. rewrite <- HV in Hnodes.
  destruct (decide (V = ∅)) as [Hempty|Hne].
  - rewrite greedy_first_round_empty in Hmain by done.
    injection Hmain as <-. split; [done|]. left. split; [done|]. split; [|done].
    vm_compute. reflexivity.
  - assert (Hcs : loaded ≠ []).
    { intros ->. apply Hne. rewrite HV. cbn. set_solver. }
    destruct (greedy_first_round V loaded Hcs Hne) as (u & HuV & Hgreedy & Hbest).
    rewrite Hgreedy in Hmain. injection Hmain as <-. split; [done|]. right.
    exists u. cbn [report_set report_influence fst snd].
    assert (HuV' : ({[u]} : gset Z) ⊆ V) by set_solver.
    pose proof (total_reach_bounds loaded {[u]} V Hnodes HuV') as Hb.
    rewrite size_singleton in Hb.
    apply (Qc_div_bounds 1 (Z.of_nat (size V))) in Hb as [Hlo Hhi];
      [|destruct loaded; [done | cbn [length]; lia]].
    split_and!; [done | | done | exact Hlo | exact Hhi | exact Hbest].
    rewrite print_set_closed_form, sorted_elements_singleton. reflexivity.
Qed.

Lemma main_reports_first_best_node_witness :
  main exact_ops Example.env =
    Done (Report (F := exact_ops) 2 "{1}" (DFin (Qc_of_Z 5 / Qc_of_Z 2)%Qc)) ∧
  ∃ V cs, get_cascade_vector Example.env ∅ [] = Done (V, cs) ∧
    report_cascades (Report (F := exact_ops) 2 "{1}" (DFin (Qc_of_Z 5 / Qc_of_Z 2)%Qc)) =
      length cs.
Proof.
  assert (H : main exact_ops Example.env =
            Done (Report (F := exact_ops) 2 "{1}" (DFin (Qc_of_Z 5 / Qc_of_Z 2)%Qc))).
  { assert (Hload : get_cascade_vector Example.env ∅ [] =
              Done ({[1; 2; 3; 4]}, [Scenario.cascade_A; ∅])) by (vm_compute; reflexivity).
    assert (Hgreedy : greedy exact_ops {[1; 2; 3; 4]} [Scenario.cascade_A; ∅] PARAM_K =
              ({[1]}, DFin (Qc_of_Z 5 / Qc_of_Z 2)%Qc)).
    { apply pair_equal_spec. split; [vm_compute; reflexivity|].
      apply double_eqb_eq. vm_compute. reflexivity. }
    assert (Hprint : print_set {[1]} "" = "{1}") by (vm_compute; reflexivity).
    rewrite main_unfold, Hload, Hgreedy. cbn [fst snd length]. by rewrite Hprint. }
  split; [done|].
  destruct (main_reports_first_best_node Example.env _ H) as (V & cs & Hload & Hlen & _).
  exists V, cs. split; [exact Hload | exact Hlen].
Defined.

(** * Further properties: the choice of a round *)

(** X22.  In a round of the greedy loop in which the [delta] of some eligible
    node (a node of [V] that is not in [S]) exceeds the initial
    [max_delta = -1.0], and in which the [delta]s of the eligible nodes are
    numbers, the node inserted into [S] is an eligible node [u] whose
    [delta], the value of [calculate_influence] for [S ∪ {u}] minus
    [previous_influence], is exceeded by the [delta] of no eligible node; the
    comparison is strict, so [u] exceeds every eligible node with a smaller
    identifier, met earlier in the ascending iteration; and
    [previous_influence] becomes the influence of [S ∪ {u}].  In a round in
    which the [delta] of no eligible node exceeds [-1.0], as when no node is
    eligible, the loop inserts [-1] and stores [-1.0].  The comparison is the
    program's own [>], for every arithmetic in which it is an order on
    numbers; exact values and binary64 are such arithmetics. *)
Theorem greedy_round_picks_first_maximizer :
  (∀ (F : double_ops) (number : dbl F → Prop)
     (V : gset Z) (cs : list (gmap Z (list Z))) (k : nat),
     ordered_arithmetic F number →
     let seeds := sel_S (greedy_rounds F V cs k) in
     let previous := previous_influence (greedy_rounds F V cs k) in
     let influence u := (calculate_influence F cs ({[u]} ∪ seeds)).1 in
     let delta u := d_sub F (influence u) previous in
     (∀ w, w ∈ V → w ∉ seeds → number (delta w)) →
     (∃ w, w ∈ V ∧ (w ∉ seeds) ∧ d_gtb F (delta w) (d_minus_one F) = true) →
     ∃ u,
       u ∈ V ∧ (u ∉ seeds) ∧
       sel_S (greedy_rounds F V cs (S k)) = {[u]} ∪ seeds ∧
       previous_influence (greedy_rounds F V cs (S k)) = influence u ∧
       (∀ w, w ∈ V → w ∉ seeds → d_gtb F (delta w) (delta u) = false) ∧
       (∀ w, w ∈ V → w ∉ seeds → w < u → d_gtb F (delta u) (delta w) = true)) ∧
  (∀ (F : double_ops) (V : gset Z) (cs : list (gmap Z (list Z))) (k : nat),
     let seeds := sel_S (greedy_rounds F V cs k) in
     let previous := previous_influence (greedy_rounds F V cs k) in
     let influence u := (calculate_influence F cs ({[u]} ∪ seeds)).1 in
     let delta u := d_sub F (influence u) previous in
     (∀ w, w ∈ V → w ∉ seeds → d_gtb F (delta w) (d_minus_one F) = false) →
     sel_S (greedy_rounds F V cs (S k)) = {[-1]} ∪ seeds ∧
     previous_influence (greedy_rounds F V cs (S k)) = d_minus_one F) ∧
  ordered_arithmetic exact_ops (λ x, x ≠ DNaN) ∧
  ordered_arithmetic binary64_ops (λ x, x ≠ S754_nan).
Proof.
  split_and!.
  - intros F number V cs k Hord seeds previous influence delta Hnum Hgt.
    subst seeds previous influence delta. cbn beta in *.
    pose proof (greedy_rounds_cascades F V cs k) as Hcs.
    rewrite greedy_rounds_S.
    destruct (greedy_rounds F V cs k) as [cs' S0 prev].
    cbn [sel_cascades sel_S previous_influence] in *. subst cs'.
    destruct (greedy_round_first_max F number Hord cs S0 prev V Hnum Hgt)
      as (u & HuV & HuS & Hround & Hmax & Hfirst).
    exists u. rewrite Hround. cbn [sel_S previous_influence]. by split_and!.
  - intros F V cs k seeds previous influence delta Hnone.
    subst seeds previous influence delta. cbn beta in *.
    pose proof (greedy_rounds_cascades F V cs k) as Hcs.
    rewrite greedy_rounds_S.
    destruct (greedy_rounds F V cs k) as [cs' S0 prev].
    cbn [sel_cascades sel_S previous_influence] in *. subst cs'.
    by rewrite greedy_round_unbeaten.
  - apply exact_ordered.
  - apply binary64_ordered.
Qed.

Lemma greedy_round_picks_first_maximizer_witness :
  ordered_arithmetic binary64_ops (λ x, x ≠ S754_nan) ∧
  (∀ w, w ∈ Scenario.universe_A →
     w ∉ sel_S (greedy_rounds binary64_ops Scenario.universe_A [Scenario.cascade_A] 1) →
     d_sub binary64_ops
       (calculate_influence binary64_ops [Scenario.cascade_A]
          ({[w]} ∪ sel_S (greedy_rounds binary64_ops Scenario.universe_A
                            [Scenario.cascade_A] 1))).1
       (previous_influence
          (greedy_rounds binary64_ops Scenario.universe_A [Scenario.cascade_A] 1))
     ≠ S754_nan) ∧
  (∃ w, w ∈ Scenario.universe_A ∧
     (w ∉ sel_S (greedy_rounds binary64_ops Scenario.universe_A [Scenario.cascade_A] 1)) ∧
     d_gtb binary64_ops
       (d_sub binary64_ops
          (calculate_influence binary64_ops [Scenario.cascade_A]
             ({[w]} ∪ sel_S (greedy_rounds binary64_ops Scenario.universe_A
                               [Scenario.cascade_A] 1))).1
          (previous_influence
             (greedy_rounds binary64_ops Scenario.universe_A [Scenario.cascade_A] 1)))
       (d_minus_one binary64_ops) = true) ∧
  ∃ u, u ∈ Scenario.universe_A ∧
       sel_S (greedy_rounds binary64_ops Scenario.universe_A [Scenario.cascade_A] 2) =
         {[u]} ∪ sel_S (greedy_rounds binary64_ops Scenario.universe_A [Scenario.cascade_A] 1).
Proof.
  assert (Hseeds : sel_S (greedy_rounds binary64_ops Scenario.universe_A
                            [Scenario.cascade_A] 1) = {[1]}) by (vm_compute; reflexivity).
  assert (Hprev : previous_influence (greedy_rounds binary64_ops Scenario.universe_A
                    [Scenario.cascade_A] 1) = b64_of_Z 4) by (vm_compute; reflexivity).
  assert (H1 : ∀ w, w ∈ Scenario.universe_A →
     w ∉ sel_S (greedy_rounds binary64_ops Scenario.universe_A [Scenario.cascade_A] 1) →
     d_sub binary64_ops
       (calculate_influence binary64_ops [Scenario.cascade_A]
          ({[w]} ∪ sel_S (greedy_rounds binary64_ops Scenario.universe_A
                            [Scenario.cascade_A] 1))).1
       (previous_influence
          (greedy_rounds binary64_ops Scenario.universe_A [Scenario.cascade_A] 1))
     ≠ S754_nan).
  { rewrite Hseeds, Hprev. intros w Hw _.
    assert (w = 1 ∨ w = 2 ∨ w = 3 ∨ w = 4) as [-> | [-> | [-> | ->]]]
      by (clear -Hw; unfold Scenario.universe_A in Hw; set_solver);
      vm_compute; discriminate. }
  assert (H2 : ∃ w, w ∈ Scenario.universe_A ∧
     (w ∉ sel_S (greedy_rounds binary64_ops Scenario.universe_A [Scenario.cascade_A] 1)) ∧
     d_gtb binary64_ops
       (d_sub binary64_ops
          (calculate_influence binary64_ops [Scenario.cascade_A]
             ({[w]} ∪ sel_S (greedy_rounds binary64_ops Scenario.universe_A
                               [Scenario.cascade_A] 1))).1
          (previous_influence
             (greedy_rounds binary64_ops Scenario.universe_A [Scenario.cascade_A] 1)))
       (d_minus_one binary64_ops) = true).
  { rewrite Hseeds, Hprev. exists 3. split_and!.
    - clear. unfold Scenario.universe_A. set_solver.
    - clear. set_solver.
    - vm_compute. reflexivity. }
  split_and!; [exact binary64_ordered | exact H1 | exact H2 |].
  destruct (proj1 greedy_round_picks_first_maximizer binary64_ops (λ x, x ≠ S754_nan)
              Scenario.universe_A [Scenario.cascade_A] 1%nat binary64_ordered H1 H2)
    as (u & Hu & _ & HS & _).
  exists u. split; [exact Hu | exact HS].
Defined.

